(** * lintutil: the linter driver of honnef.co/go/tools

    A shallow embedding of [lint/lintutil] (command line handling, the
    [Lint] driver, compile error synthesis and the exit policy of
    [ProcessFlagSet]) together with the properties established about it.

    Conventions.
    - A Go [string] is a sequence of bytes: [String.string].
    - A Go [int] is 64 bits wide and is carried by [Z]; the only place where
      the width matters is [strconv.Atoi], whose range check is written out.
    - A function with results [(T, error)] returns a pair whose second
      component is [None] for a nil error.
    - Go maps are [gmap]s; the order in which [range] walks a map is not
      fixed by the language and is supplied by an explicit schedule.
    - Side effects (loader and checker calls, writes to stderr) are recorded
      as events in the state of a small state monad; recursion that Go does
      not bound is defined with fuel, and running out of fuel is [None]. *)

From Stdlib Require Import ZArith List String Ascii Bool Lia Sorted Permutation.
From stdpp Require Import gmap strings list fin_maps.

Local Open Scope Z_scope.

(** ** Errors *)

Inductive NumErr := ErrSyntax | ErrRange.

(** The error values that appear in the driver: [errors.New msg], the
    [*strconv.NumError] of the integer parser, and errors of the package
    loader, which are kept opaque. *)
Inductive error :=
| errors_New (msg : string)
| NumError (func num : string) (err : NumErr)
| LoadError (msg : string).

(** ** Bytes and strings *)

Definition byte (c : ascii) : Z := Z.of_N (N_of_ascii c).

(** [s[i]] for an index the caller has checked. *)
Definition index (s : string) (i : nat) : ascii :=
  match String.get i s with Some c => c | None => zero end.

(** [s[n:]]. *)
Fixpoint slice_from (n : nat) (s : string) : string :=
  match n, s with
  | O, _ => s
  | S n', String _ r => slice_from n' r
  | S _, EmptyString => EmptyString
  end.

(** ** strconv.Atoi *)

Definition is_digit (c : ascii) : bool := (48 <=? byte c) && (byte c <=? 57).
Definition digit (c : ascii) : Z := byte c - 48.

Definition maxUint64 : Z := 2 ^ 64 - 1.
Definition maxInt : Z := 2 ^ 63 - 1.
Definition minInt : Z := - 2 ^ 63.

(** The digit loop of [strconv.ParseUint(s, 10, 64)]: bytes are consumed from
    the left, and the first byte that is not a digit, or the first digit that
    takes the value out of the unsigned range, ends the loop with its own
    error. *)
Fixpoint ParseUint_loop (n : Z) (s : string) : Z * option NumErr :=
  match s with
  | EmptyString => (n, None)
  | String c r =>
      if is_digit c then
        if n >=? maxUint64 / 10 + 1 then (maxUint64, Some ErrRange)
        else
          let n1 := n * 10 + digit c in
          if n1 >? maxUint64 then (maxUint64, Some ErrRange)
          else ParseUint_loop n1 r
      else (0, Some ErrSyntax)
  end.

Definition ParseUint (s : string) : Z * option NumErr :=
  match s with
  | EmptyString => (0, Some ErrSyntax)
  | _ => ParseUint_loop 0 s
  end.

(** [strconv.Atoi]: an optional sign, then [ParseUint]; a syntax error yields
    0, a value outside the [int] range yields the nearest bound, both with a
    [NumError]. *)
Definition strconv_Atoi (s : string) : Z * option error :=
  match s with
  | EmptyString => (0, Some (NumError "Atoi" s ErrSyntax))
  | String c r =>
      let neg := Ascii.eqb c "-" in
      let body := if Ascii.eqb c "+" || neg then r else s in
      match ParseUint body with
      | (_, Some ErrSyntax) => (0, Some (NumError "Atoi" s ErrSyntax))
      | (un, _) =>
          if negb neg && (un >=? 2 ^ 63) then
            (maxInt, Some (NumError "Atoi" s ErrRange))
          else if neg && (un >? 2 ^ 63) then
            (minInt, Some (NumError "Atoi" s ErrRange))
          else (if neg then - un else un, None)
      end
  end.

(** ** versionFlag *)

(** [versionFlag] is an [int]; [Set] has a pointer receiver, so the stored
    value is threaded: the function takes the old value and returns the new
    one next to the error. *)
Definition versionFlag := Z.

Definition versionFlag_Set (s : string) (v : versionFlag)
  : versionFlag * option error :=
  if (String.length s <? 3)%nat then (v, Some (errors_New "invalid Go version"))
  else if negb (Ascii.eqb (index s 0) "1") then
    (v, Some (errors_New "invalid Go version"))
  else if negb (Ascii.eqb (index s 1) ".") then
    (v, Some (errors_New "invalid Go version"))
  else
    let '(i, err) := strconv_Atoi (slice_from 2 s) in
    (i, err).

Definition versionFlag_Get (v : versionFlag) : Z := v.


(** The decimal digits of [u], least significant first onto [acc]: the loop
    of [strconv.FormatInt] in base 10. Twenty rounds cover 64 bits. *)
Definition digit_char (d : Z) : ascii := ascii_of_N (Z.to_N (48 + d)).

Fixpoint format_digits (fuel : nat) (u : Z) (acc : string) : string :=
  match fuel with
  | O => acc
  | S fuel' =>
      let acc' := String (digit_char (u mod 10)) acc in
      if u / 10 =? 0 then acc' else format_digits fuel' (u / 10) acc'
  end.

(** The verb [%d] on an [int]: a minus sign for a negative value, then the
    digits of the magnitude. *)
Definition FormatInt (i : Z) : string :=
  if i <? 0 then String "-" (format_digits 20 (- i) EmptyString)
  else format_digits 20 i EmptyString.

(** [fmt.Sprintf("1.%d", *v)]. *)
Definition versionFlag_String (v : versionFlag) : string :=
  "1." +:+ FormatInt v.

(** ** strings.Fields and strings.Split *)

(** The width in bytes of the white space rune at the head of [s], or 0 when
    [s] does not start with one. This is [unicode.IsSpace] read over the UTF-8
    encoding: the six ASCII spaces, U+0085 and U+00A0, U+1680, U+2000 to
    U+200A, U+2028, U+2029, U+202F, U+205F and U+3000. A lead byte never
    occurs inside another rune, so looking at the bytes in place agrees with
    decoding rune by rune. *)
Definition space_width (s : string) : nat :=
  match s with
  | EmptyString => 0%nat
  | String c r =>
      let b := byte c in
      if ((9 <=? b) && (b <=? 13)) || (b =? 32) then 1%nat
      else
        match r with
        | String c1 r1 =>
            let b1 := byte c1 in
            if b =? 194 then
              if (b1 =? 133) || (b1 =? 160) then 2%nat else 0%nat
            else
              match r1 with
              | String c2 _ =>
                  let b2 := byte c2 in
                  if (b =? 225) && (b1 =? 154) && (b2 =? 128) then 3%nat
                  else if (b =? 226) && (b1 =? 128)
                          && (((128 <=? b2) && (b2 <=? 138))
                              || (b2 =? 168) || (b2 =? 169) || (b2 =? 175))
                  then 3%nat
                  else if (b =? 226) && (b1 =? 129) && (b2 =? 159) then 3%nat
                  else if (b =? 227) && (b1 =? 128) && (b2 =? 128) then 3%nat
                  else 0%nat
              | EmptyString => 0%nat
              end
        | EmptyString => 0%nat
        end
  end.

Definition flush (cur : string) : list string :=
  match cur with EmptyString => [] | _ => [cur] end.

(** [skip] counts the bytes of a white space rune still to be passed over;
    [cur] is the field read so far. *)
Fixpoint Fields_loop (skip : nat) (cur : string) (s : string) : list string :=
  match s with
  | EmptyString => flush cur
  | String c r =>
      match skip with
      | S k => Fields_loop k cur r
      | O =>
          match space_width s with
          | O => Fields_loop 0 (cur +:+ String c EmptyString) r
          | S k => flush cur ++ Fields_loop k EmptyString r
          end
      end
  end.

(** [strings.Fields(s)]: the maximal runs of bytes between white space. *)
Definition strings_Fields (s : string) : list string :=
  Fields_loop 0 EmptyString s.

(** [strings.Split(s, sep)] for a separator of one byte, which is what both
    call sites pass: the pieces of [s] between the occurrences of [sep], one
    more than there are occurrences. *)
Fixpoint strings_Split (s : string) (sep : ascii) : list string :=
  match s with
  | EmptyString => [EmptyString]
  | String c r =>
      if Ascii.eqb c sep then EmptyString :: strings_Split r sep
      else
        match strings_Split r sep with
        | h :: t => String c h :: t
        | [] => [String c EmptyString]
        end
  end.

(** ** resolveRelative *)

(** [strings.HasSuffix(s, suffix)]. *)
Definition strings_HasSuffix (s suffix : string) : bool :=
  (String.length suffix <=? String.length s)%nat
  && String.eqb (slice_from (String.length s - String.length suffix) s) suffix.

(** The two errors [resolveRelative] returns: the one of [os.Getwd], and
    [fmt.Errorf("can't load package %q: %v", path, err)]. *)
Inductive resolveError :=
| getwd_error (e : error)
| cant_load_package (path : string) (e : error).

Section Resolve.

(** [os.Getwd()]. *)
Variable os_Getwd : string * option error.

(** [ctx.Import(path, wd, build.FindOnly)] with [ctx.BuildTags = tags], as a
    function of the tags, the path and the directory; the first component is
    [bpkg.ImportPath]. *)
Variable build_Import : list string -> string -> string -> string * option error.

(** The loop over [importPaths]: [resolved] are the elements already
    overwritten, [rest] those from index [i] on. The slice as it stands is
    returned with the error. *)
Fixpoint resolve_loop (tags : list string) (wd : string)
    (resolved rest : list string) : list string * option resolveError :=
  match rest with
  | [] => (resolved, None)
  | path :: rest' =>
      let '(ImportPath, err) := build_Import tags path wd in
      match err with
      | Some e => (resolved ++ path :: rest', Some (cant_load_package path e))
      | None => resolve_loop tags wd (resolved ++ [ImportPath]) rest'
      end
  end.

(** [importPaths] is a slice the function writes to: its contents after the
    call are returned first, then [goFiles] and [err]. *)
Definition resolveRelative (importPaths tags : list string)
  : list string * bool * option resolveError :=
  if (length importPaths =? 0)%nat then (importPaths, false, None)
  else if strings_HasSuffix (nth 0 importPaths EmptyString) ".go" then
    (importPaths, true, None)
  else
    let '(wd, err) := os_Getwd in
    match err with
    | Some e => (importPaths, false, Some (getwd_error e))
    | None =>
        let '(paths, err) := resolve_loop tags wd [] importPaths in
        (paths, false, err)
    end.

End Resolve.


(** ** parseIgnore *)

(** [lint.GlobIgnore], the only implementation of [lint.Ignore] the driver
    builds. *)
Record GlobIgnore := { Pattern : string; Checks : list string }.

Definition malformed : error := errors_New "malformed ignore string".

(** The body of the [for ... range strings.Fields(s)] loop, [out] being the
    slice built so far. *)
Fixpoint parseIgnore_loop (out : list GlobIgnore) (parts : list string)
  : list GlobIgnore * option error :=
  match parts with
  | [] => (out, None)
  | part :: rest =>
      let p := strings_Split part ":" in
      if negb (length p =? 2)%nat then ([], Some malformed)
      else
        let path := nth 0 p EmptyString in
        let checks := strings_Split (nth 1 p EmptyString) "," in
        parseIgnore_loop (out ++ [{| Pattern := path; Checks := checks |}]) rest
  end.

Definition parseIgnore (s : string) : list GlobIgnore * option error :=
  if (String.length s =? 0)%nat then ([], None)
  else parseIgnore_loop [] (strings_Fields s).

(** ** Problems *)

(** [go/token.Position]. *)
Record token_Position :=
  { Filename : string; Offset : Z; Line : Z; Column : Z }.

(** [lint.Problem], with the fields the driver reads and writes. *)
Record Problem :=
  { Position : token_Position; Text : string;
    Checker : string; Check : string }.

(** The zero value of [lint.Problem]. *)
Definition zero_Position : token_Position :=
  {| Filename := EmptyString; Offset := 0; Line := 0; Column := 0 |}.
Definition zero_Problem : Problem :=
  {| Position := zero_Position; Text := EmptyString;
     Checker := EmptyString; Check := EmptyString |}.

(** [==] on [token.Position]: struct equality, field by field. *)
Definition Position_eqb (a b : token_Position) : bool :=
  String.eqb (Filename a) (Filename b) && (Offset a =? Offset b)
  && (Line a =? Line b) && (Column a =? Column b).

(** The [less] closure handed to [sort.Slice]. *)
Definition less (p q : Problem) : bool :=
  let pi := Position p in
  let pj := Position q in
  if negb (String.eqb (Filename pi) (Filename pj)) then
    String.ltb (Filename pi) (Filename pj)
  else if negb (Line pi =? Line pj) then Line pi <? Line pj
  else if negb (Column pi =? Column pj) then Column pi <? Column pj
  else String.ltb (Text p) (Text q).

(** ** sort.Slice *)

(** What [sort.Slice] asks of its [less]. *)
Record StrictWeakOrder {A} (lt : A -> A -> bool) : Prop :=
  { swo_irrefl : forall x, lt x x = false;
    swo_trans : forall x y z, lt x y = true -> lt y z = true -> lt x z = true;
    swo_incomp : forall x y z,
        lt x y = false -> lt y z = false -> lt x z = false }.

(** [sort.Slice] is library code and is not stable; it enters the driver as
    a function, and its contract is all that is asked of that function: the
    slice is rearranged, and afterwards no element is [less] than one that
    stands before it. *)
Record sorts (sort_Slice : forall A, (A -> A -> bool) -> list A -> list A)
  : Prop :=
  { sort_perm : forall A lt l, Permutation (sort_Slice A lt l) l;
    sort_sorted : forall A lt l,
        StrictWeakOrder lt ->
        StronglySorted (fun x y => lt y x = false) (sort_Slice A lt l) }.

(** ** Removal of adjacent duplicates *)

Definition same (prev p : Problem) : bool :=
  Position_eqb (Position prev) (Position p) && String.eqb (Text prev) (Text p).

(** One round of the loop over [problems[1:]]; the state is [(uniq, prev)]. *)
Definition uniq_step (acc : list Problem * Problem) (p : Problem)
  : list Problem * Problem :=
  let '(uniq, prev) := acc in
  if same prev p then (uniq, prev) else (uniq ++ [p], p).

(** Lines 300 to 315 of [Lint]. *)
Definition dedup (problems : list Problem) : list Problem :=
  if (length problems <? 2)%nat then problems
  else
    match problems with
    | [] => problems
    | p0 :: rest => fst (fold_left uniq_step rest ([p0], p0))
    end.

(** ** Packages *)

(** A [*packages.Package] is an address; the loaded graph maps addresses to
    the packages they point to. Every address holds a package (the loader
    leaves no nil pointer in [Imports]), and addresses may form cycles. *)
Definition PkgId := nat.

(** An element of [Package.Errors], of type [error]: a [types.Error], carried
    with the position that [err.Fset.Position(err.Pos)] resolves to, or a
    value of any other dynamic type, of which only the type name ([%T]) is
    ever looked at. *)
Inductive GoError :=
| types_Error (pos : token_Position) (msg : string)
| other_error (type_name : string).

(** [packages.Package], with the fields the driver reads. [Imports] is a Go
    map from import path to package. *)
Record Package :=
  { IllTyped : bool; Errors : list GoError; Imports : gmap string PkgId }.

(** The order of one [range] over a map: the [n]-th [range] statement that a
    run executes walks the entries in the order [order n] gives them. Go
    fixes nothing about that order beyond each entry being visited once. *)
Record Sched :=
  { order : nat -> forall V, list (string * V) -> list (string * V);
    order_perm : forall n V l, Permutation (order n V l) l }.

(** ** Options and the records of the runner *)

Record Options :=
  { Tags : list string; LintTests : bool; Ignores : string;
    GoVersion : Z; ReturnIgnored : bool }.

(** [&Options{}]. *)
Definition zero_Options : Options :=
  {| Tags := []; LintTests := false; Ignores := EmptyString;
     GoVersion := 0; ReturnIgnored := false |}.

Section Driver.

(** [lint.Checker] values. *)
Variable CheckerT : Type.

(** The heap of loaded packages. *)
Variable heap : PkgId -> Package.

(** [packages.Load(conf, paths...)], as a function of [conf.Tests] and the
    paths. *)
Variable packages_Load : bool -> list string -> list PkgId * option error.

(** [sort.Slice]. *)
Variable sort_Slice : forall A : Type, (A -> A -> bool) -> list A -> list A.
Variable sched : Sched.

Record runner :=
  { checker : CheckerT; tags : list string; ignores : list GlobIgnore;
    version : Z; returnIgnored : bool }.

(** [lint.Linter], with the fields [runner.lint] sets. *)
Record Linter :=
  { L_Checker : CheckerT; L_Ignores : list GlobIgnore;
    L_GoVersion : Z; L_ReturnIgnored : bool }.

(** The method [Lint] of [lint.Linter], which runs one checker over the
    packages. *)
Variable Linter_Lint : Linter -> list PkgId -> list Problem.

(** *** The monad of the driver *)

(** What the driver writes to [os.Stderr]: the line
    "internal error: unhandled error type %T", an error printed with
    [fmt.Fprintln], and the line "unsupported output format %q". *)
Inductive StderrLine :=
| unhandled_error_type (type_name : string)
| error_line (e : error)
| unsupported_format (name : string).

Inductive Event :=
| EvLoad (tests : bool) (paths : list string)
| EvLint (l : Linter) (pkgs : list PkgId)
| EvStderr (line : StderrLine)
| EvVersion
| EvFormat (p : Problem)
| EvStats (total errors warnings : Z).

(** [ranges] counts the [range] statements over maps executed so far;
    [trace] lists the events, oldest first. *)
Record St := { ranges : nat; trace : list Event }.

Definition M (A : Type) : Type := St -> option (A * St).

#[global] Instance M_ret : MRet M := fun A a st => Some (a, st).
#[global] Instance M_bind : MBind M := fun A B f m st =>
  match m st with
  | Some (a, st') => f a st'
  | None => None
  end.

Definition emit (e : Event) : M unit := fun st =>
  Some (tt, {| ranges := ranges st; trace := trace st ++ [e] |}).

(** The entries of [m] in the order this [range] statement visits them. *)
Definition range_map {V} (m : gmap string V) : M (list (string * V)) :=
  fun st =>
    Some (order sched (ranges st) V (map_to_list m),
          {| ranges := S (ranges st); trace := trace st |}).

Fixpoint foldM {A B} (f : B -> A -> M B) (b : B) (l : list A) : M B :=
  match l with
  | [] => mret b
  | x :: l' => b' ← f b x; foldM f b' l'
  end.

(** *** compileErrors *)

(** One round of the loop over [pkg.Errors]. *)
Definition compileErrors_step (ps : list Problem) (err : GoError)
  : M (list Problem) :=
  match err with
  | types_Error pos msg =>
      mret (ps ++ [{| Position := pos; Text := msg;
                      Checker := "compiler"; Check := "compile" |}])
  | other_error type_name =>
      _ ← emit (EvStderr (unhandled_error_type type_name));
      mret (ps ++ [zero_Problem])
  end.

(** [fuel] bounds the depth of the recursion through [Imports], which the
    source does not. *)
Fixpoint compileErrors (fuel : nat) (pkg : PkgId) : M (list Problem) :=
  match fuel with
  | O => fun _ => None
  | S fuel' =>
      if negb (IllTyped (heap pkg)) then mret []
      else if (length (Errors (heap pkg)) =? 0)%nat then
        imps ← range_map (Imports (heap pkg));
        foldM (fun ps imp => ps' ← compileErrors fuel' imp.2; mret (ps ++ ps'))
              [] imps
      else foldM compileErrors_step [] (Errors (heap pkg))
  end.

(** *** Lint *)

Definition runner_lint (r : runner) (initial : list PkgId)
  : M (list Problem) :=
  let l := {| L_Checker := checker r; L_Ignores := ignores r;
              L_GoVersion := version r; L_ReturnIgnored := returnIgnored r |} in
  _ ← emit (EvLint l initial);
  mret (Linter_Lint l initial).

(** One round of the loop that splits the loaded packages; the state is
    [(problems, workingPkgs)]. *)
Definition partition_step (fuel : nat) (acc : list Problem * list PkgId)
    (pkg : PkgId) : M (list Problem * list PkgId) :=
  if IllTyped (heap pkg) then
    ps ← compileErrors fuel pkg; mret (acc.1 ++ ps, acc.2)
  else mret (acc.1, acc.2 ++ [pkg]).

Definition Lint (fuel : nat) (cs : list CheckerT) (paths : list string)
    (opt : option Options) : M (list Problem * option error) :=
  let opt := match opt with Some o => o | None => zero_Options end in
  let '(ignores, err) := parseIgnore (Ignores opt) in
  match err with
  | Some e => mret ([], Some e)
  | None =>
      _ ← emit (EvLoad (LintTests opt) paths);
      let '(pkgs, err) := packages_Load (LintTests opt) paths in
      match err with
      | Some e => mret ([], Some e)
      | None =>
          '(problems, workingPkgs) ← foldM (partition_step fuel) ([], []) pkgs;
          if (length workingPkgs =? 0)%nat then mret (problems, None)
          else
            problems ← foldM (fun problems c =>
                ps ← runner_lint {| checker := c; tags := Tags opt;
                                    ignores := ignores;
                                    version := GoVersion opt;
                                    returnIgnored := ReturnIgnored opt |}
                                 workingPkgs;
                mret (problems ++ ps)) problems cs;
            mret (dedup (sort_Slice Problem less problems), None)
      end
  end.

(** *** ProcessFlagSet *)

Record CheckerConfig := { CC_Checker : CheckerT; ExitNonZero : bool }.

(** The values [ProcessFlagSet] looks up in the flag set, and [fs.Args()]. *)
Record FlagSet :=
  { flag_tags : string; flag_ignore : string; flag_tests : bool;
    flag_go : Z; flag_f : string; flag_version : bool;
    flag_show_ignored : bool; flag_args : list string }.

Inductive Formatter := format_Text | format_Stylish | format_JSON.

(** Whether a formatter implements [format.Statter]; the [format] package
    decides. *)
Variable Statter : Formatter -> bool.

(** [os.Exit(code)] ends the process; otherwise the function returns. *)
Inductive Outcome := Exit (code : Z) | Return.

(** One round of the loop over [ps]; the state is [(errors, warnings)]. *)
Definition tally_step (confs : gmap string CheckerConfig) (acc : Z * Z)
    (p : Problem) : M (Z * Z) :=
  let acc' :=
    match confs !! Checker p with
    | None => (acc.1 + 1, acc.2)
    | Some conf =>
        if ExitNonZero conf then (acc.1 + 1, acc.2) else (acc.1, acc.2 + 1)
    end in
  _ ← emit (EvFormat p);
  mret acc'.

(** Lines 200 to 221: count, format, report the statistics, choose the exit
    status. A slice holds fewer than [2 ^ 63] elements, so the counters do
    not wrap. *)
Definition report (confs : gmap string CheckerConfig) (f : Formatter)
    (ps : list Problem) : M Outcome :=
  let total := Z.of_nat (length ps) in
  '(errors, warnings) ← foldM (tally_step confs) (0, 0) ps;
  _ ← (if Statter f then emit (EvStats total errors warnings) else mret tt);
  if errors >? 0 then mret (Exit 1) else mret Return.

Definition ProcessFlagSet (fuel : nat) (confs : gmap string CheckerConfig)
    (fs : FlagSet) : M Outcome :=
  if flag_version fs then _ ← emit EvVersion; mret (Exit 0)
  else
    entries ← range_map confs;
    let cs := map (fun e => CC_Checker e.2) entries in
    '(ps, err) ← Lint fuel cs (flag_args fs)
                   (Some {| Tags := strings_Fields (flag_tags fs);
                            LintTests := flag_tests fs;
                            Ignores := flag_ignore fs;
                            GoVersion := flag_go fs;
                            ReturnIgnored := flag_show_ignored fs |});
    match err with
    | Some e => _ ← emit (EvStderr (error_line e)); mret (Exit 1)
    | None =>
        let continue f := report confs f ps in
        if String.eqb (flag_f fs) "text" then continue format_Text
        else if String.eqb (flag_f fs) "stylish" then continue format_Stylish
        else if String.eqb (flag_f fs) "json" then continue format_JSON
        else
          _ ← emit (EvStderr (unsupported_format (flag_f fs)));
          mret (Exit 2)
    end.

End Driver.

Arguments ranges {CheckerT} _.
Arguments trace {CheckerT} _.
Arguments EvLoad {CheckerT} tests paths.
Arguments EvLint {CheckerT} l pkgs.
Arguments EvStderr {CheckerT} line.
Arguments EvVersion {CheckerT}.
Arguments EvFormat {CheckerT} p.
Arguments EvStats {CheckerT} total errors warnings.
Arguments emit {CheckerT} e st.
Arguments range_map {CheckerT} sched {V} m st.
Arguments foldM {CheckerT A B} f b l.
Arguments compileErrors_step {CheckerT} ps err.
Arguments compileErrors {CheckerT} heap sched fuel pkg.
Arguments runner_lint {CheckerT} Linter_Lint r initial.
Arguments partition_step {CheckerT} heap sched fuel acc pkg.
Arguments Lint {CheckerT} heap packages_Load sort_Slice sched Linter_Lint
  fuel cs paths opt.
Arguments tally_step {CheckerT} confs acc p.
Arguments report {CheckerT} Statter confs f ps.
Arguments ProcessFlagSet {CheckerT} heap packages_Load sort_Slice sched
  Linter_Lint Statter fuel confs fs.


(** ** FlagSet *)

(** How [FlagSet] can panic: [tags[len(tags)-1]] on an empty slice, [[2:]] on
    a tag shorter than two bytes, and the explicit panic on a version that
    does not parse. *)
Inductive panic :=
| index_out_of_range
| slice_bounds_out_of_range
| internal_error (e : error).

(** [FlagSet(name)], as a function of [build.Default.ReleaseTags]: the values
    of the flags before any argument is parsed, the flag [go] being set from
    the last release tag without its first two bytes. The name only enters
    the usage text. *)
Definition lintutil_FlagSet (ReleaseTags : list string) : FlagSet + panic :=
  match last ReleaseTags with
  | None => inr index_out_of_range
  | Some tag =>
      if (String.length tag <? 2)%nat then inr slice_bounds_out_of_range
      else
        let '(version, err) := versionFlag_Set (slice_from 2 tag) 0 in
        match err with
        | Some e => inr (internal_error e)
        | None =>
            inl {| flag_tags := EmptyString; flag_ignore := EmptyString;
                   flag_tests := true; flag_go := versionFlag_Get version;
                   flag_f := "text"; flag_version := false;
                   flag_show_ignored := false; flag_args := [] |}
        end
  end.

(** ** The commands *)

(** The maps the two commands register their checker in: errcheck-ng under
    the name "errcheck", gosimple under the name "simple", both with
    [ExitNonZero]. *)
Definition errcheck_ng_confs {CheckerT} (c : CheckerT)
  : gmap string (CheckerConfig CheckerT) :=
  {[ "errcheck" := {| CC_Checker := c; ExitNonZero := true |} ]}.

Definition gosimple_confs {CheckerT} (c : CheckerT)
  : gmap string (CheckerConfig CheckerT) :=
  {[ "simple" := {| CC_Checker := c; ExitNonZero := true |} ]}.


(** * Vocabulary of the statements *)

(** ** Orders *)

(** A three-way comparison that decides a strict total order. *)
Record GoodCmp {A} (c : A -> A -> comparison) : Prop :=
  { cmp_eq : forall x y, c x y = Eq <-> x = y;
    cmp_antisym : forall x y, c x y = CompOpp (c y x);
    cmp_trans : forall x y z, c x y = Lt -> c y z = Lt -> c x z = Lt }.

(** The lexicographic combination of two comparisons. *)
Definition lex {A B} (cA : A -> A -> comparison) (cB : B -> B -> comparison)
    (x y : A * B) : comparison :=
  match cA x.1 y.1 with
  | Eq => cB x.2 y.2
  | c => c
  end.

(** The sort key of a problem and its comparison. *)
Definition key (p : Problem) : string * (Z * (Z * string)) :=
  (Filename (Position p), (Line (Position p), (Column (Position p), Text p))).

Definition key_compare : string * (Z * (Z * string)) ->
                         string * (Z * (Z * string)) -> comparison :=
  lex String.compare (lex Z.compare (lex Z.compare String.compare)).

(** The order of the specification: bytewise lexicographic on strings, and
    lexicographic on (filename, line, column, message). *)
Definition str_lt (a b : string) : Prop := String.compare a b = Lt.

Definition key_le (p q : Problem) : Prop :=
  str_lt (Filename (Position p)) (Filename (Position q))
  \/ (Filename (Position p) = Filename (Position q)
      /\ (Line (Position p) < Line (Position q)
          \/ (Line (Position p) = Line (Position q)
              /\ (Column (Position p) < Column (Position q)
                  \/ (Column (Position p) = Column (Position q)
                      /\ (str_lt (Text p) (Text q) \/ Text p = Text q)))))).

(** [d1] precedes [d2] in [l] only if its key is not greater. *)
Definition sorted_by_key (l : list Problem) : Prop :=
  forall i j d1 d2,
    (i < j)%nat -> l !! i = Some d1 -> l !! j = Some d2 -> key_le d1 d2.

(** ** A sorting function: stable insertion sort *)

(** [x] goes in front of the first element that is not less than it. *)
Fixpoint insert {A} (lt : A -> A -> bool) (x : A) (l : list A) : list A :=
  match l with
  | [] => [x]
  | y :: l' => if lt y x then y :: insert lt x l' else x :: l
  end.

Definition insertion_sort A (lt : A -> A -> bool) (l : list A) : list A :=
  fold_right (insert lt) [] l.

(** ** Two schedules: map entries in key order, and in reverse key order *)

Definition in_order : Sched :=
  {| order := fun _ V l => l;
     order_perm := fun _ V l => Permutation_refl l |}.

Definition reversed : Sched :=
  {| order := fun _ V l => rev l;
     order_perm := fun _ V l => Permutation_sym (Permutation_rev l) |}.

(** ** Runs of duplicates *)

(** The loop over [problems[1:]] as a recursion: [prev] is the last problem
    kept. *)
Fixpoint collapse_from (prev : Problem) (l : list Problem) : list Problem :=
  match l with
  | [] => []
  | p :: l' =>
      if same prev p then collapse_from prev l' else p :: collapse_from p l'
  end.

(** A run: a problem followed by problems that are the same as it. *)
Definition run_of (r : Problem * list Problem) : list Problem := r.1 :: r.2.

Definition is_run (r : Problem * list Problem) : Prop :=
  Forall (fun d => same r.1 d = true) r.2.

(** No problem is the same as the one just before it. *)
Definition no_adjacent_same (l : list Problem) : Prop :=
  forall i a b, l !! i = Some a -> l !! S i = Some b -> same a b = false.

(** The same, told from the front: [prev] is the problem before [l]. *)
Fixpoint chain (prev : Problem) (l : list Problem) : Prop :=
  match l with
  | [] => True
  | p :: l' => same prev p = false /\ chain p l'
  end.

(** The identity of the specification: position and message. *)
Definition identical (a b : Problem) : Prop :=
  Position a = Position b /\ Text a = Text b.

(** Problems that share filename, line and column share the offset too:
    what holds of positions that come from one file set with no line
    directive in between. *)
Definition offsets_agree (l : list Problem) : Prop :=
  forall a b, In a l -> In b l ->
    Filename (Position a) = Filename (Position b) ->
    Line (Position a) = Line (Position b) ->
    Column (Position a) = Column (Position b) ->
    Offset (Position a) = Offset (Position b).


(** ** Decimal numerals and version strings *)

Fixpoint all_digits (s : string) : bool :=
  match s with
  | EmptyString => true
  | String c r => is_digit c && all_digits r
  end.

(** The number a string of digits denotes, read after the digits of [n]. *)
Fixpoint value_from (n : Z) (s : string) : Z :=
  match s with
  | EmptyString => n
  | String c r => value_from (n * 10 + digit c) r
  end.

Definition decimal_value (s : string) : Z := value_from 0 s.

(** A decimal numeral: one or more decimal digits. *)
Definition numeral (s : string) : Prop :=
  s <> EmptyString /\ all_digits s = true.

(** The sign prefixes [strconv.Atoi] accepts. *)
Definition is_sign (sign : string) : Prop :=
  sign = EmptyString \/ sign = "+" \/ sign = "-".

(** The value of the numeral [d] under the sign [sign]. *)
Definition signed_value (sign d : string) : Z :=
  if String.eqb sign "-" then - decimal_value d else decimal_value d.

(** The error of the three checks [Set] makes before it parses. *)
Definition invalid_version : error := errors_New "invalid Go version".

(** The strings [versionFlag.Set] accepts, with the value it stores: "1.",
    an optional sign, and a numeral whose signed value is in the range of
    [int]. *)
Definition accepted_version (s : string) (N : Z) : Prop :=
  exists sign d,
    s = "1." +:+ sign +:+ d /\ is_sign sign /\ numeral d
    /\ N = signed_value sign d /\ minInt <= N <= maxInt.

(** ** Tokens of the ignore text *)

(** The number of bytes of [s] equal to [sep]. *)
Fixpoint count_byte (sep : ascii) (s : string) : nat :=
  match s with
  | EmptyString => 0%nat
  | String c r => ((if Ascii.eqb c sep then 1 else 0) + count_byte sep r)%nat
  end.

(** The part of [s] before the first [sep], and the part after it. *)
Fixpoint before (sep : ascii) (s : string) : string :=
  match s with
  | EmptyString => EmptyString
  | String c r => if Ascii.eqb c sep then EmptyString else String c (before sep r)
  end.

Fixpoint after (sep : ascii) (s : string) : string :=
  match s with
  | EmptyString => EmptyString
  | String c r => if Ascii.eqb c sep then r else after sep r
  end.

(** The rule a well-formed token stands for. *)
Definition rule_of (tok : string) : GlobIgnore :=
  {| Pattern := before ":" tok; Checks := strings_Split (after ":" tok) "," |}.

(** ** Rendering *)

(** [strings.Join(l, sep)] for a separator of one byte. *)
Fixpoint join (sep : ascii) (l : list string) : string :=
  match l with
  | [] => EmptyString
  | [x] => x
  | x :: l' => x +:+ String sep (join sep l')
  end.

(** A rule written back in the format of the ignore text. *)
Definition render (r : GlobIgnore) : string :=
  Pattern r +:+ String ":" (join "," (Checks r)).

(** The six ASCII white space bytes. *)
Definition is_ascii_space (c : ascii) : bool :=
  ((9 <=? byte c) && (byte c <=? 13)) || (byte c =? 32).

(** Strings of ASCII bytes with no white space among them: what can stand
    between two blanks of an ignore text written in ASCII. *)
Fixpoint plain (s : string) : bool :=
  match s with
  | EmptyString => true
  | String c r => (byte c <? 128) && negb (is_ascii_space c) && plain r
  end.

(** The form of the rules [parseIgnore] produces: no colon in the pattern, at
    least one check, no comma and no colon in a check. Pattern and checks may
    be empty strings. *)
Definition shaped (r : GlobIgnore) : Prop :=
  count_byte ":" (Pattern r) = 0%nat
  /\ Checks r <> []
  /\ Forall (fun c => count_byte "," c = 0%nat /\ count_byte ":" c = 0%nat)
            (Checks r).

Definition plain_rule (r : GlobIgnore) : Prop :=
  plain (Pattern r) = true /\ Forall (fun c => plain c = true) (Checks r).

(** The flag values [FlagSet] starts from, for the target version [N]. *)
Definition default_flags (N : Z) : FlagSet :=
  {| flag_tags := EmptyString; flag_ignore := EmptyString; flag_tests := true;
     flag_go := N; flag_f := "text"; flag_version := false;
     flag_show_ignored := false; flag_args := [] |}.


(** ** Runs of the driver *)

(** The problem one element of [pkg.Errors] adds to [ps]. *)
Definition problem_of (e : GoError) : Problem :=
  match e with
  | types_Error pos msg =>
      {| Position := pos; Text := msg;
         Checker := "compiler"; Check := "compile" |}
  | other_error _ => zero_Problem
  end.

Section DriverSpec.

Context (CheckerT : Type) (heap : PkgId -> Package).
Context (packages_Load : bool -> list string -> list PkgId * option error).
Context (sort_Slice : forall A : Type, (A -> A -> bool) -> list A -> list A).
Context (Linter_Lint : Linter CheckerT -> list PkgId -> list Problem).
#[local] Abbreviation M := (M CheckerT).
#[local] Abbreviation St := (St CheckerT).
#[local] Abbreviation Event := (Event CheckerT).

(** What the round for one element of [pkg.Errors] writes to stderr. *)
Definition stderr_of (e : GoError) : list Event :=
  match e with
  | types_Error _ _ => []
  | other_error t => [EvStderr (unhandled_error_type t)]
  end.

(** [st'] continues [st] with the events [evs]. *)
Definition extends (st st' : St) (evs : list Event) : Prop :=
  trace st' = trace st ++ evs.

Definition is_EvLint (e : Event) : bool :=
  match e with EvLint _ _ => true | _ => false end.

Definition is_EvLoad (e : Event) : bool :=
  match e with EvLoad _ _ => true | _ => false end.

Definition is_EvStderr (e : Event) : bool :=
  match e with EvStderr _ => true | _ => false end.

(** A run of [compileErrors] on [pkg] under [sched] that returns [ps]. *)
Definition synthesizes (sched : Sched) (fuel : nat) (pkg : PkgId)
    (ps : list Problem) : Prop :=
  exists st st' : St, compileErrors heap sched fuel pkg st = Some (ps, st').

(** The import relation that the recursion follows goes down along [rank]:
    it starts from ill-typed packages without errors of their own. *)
Definition ranked (rank : PkgId -> nat) : Prop :=
  forall pkg path imp,
    IllTyped (heap pkg) = true -> Errors (heap pkg) = [] ->
    Imports (heap pkg) !! path = Some imp ->
    (rank imp < rank pkg)%nat.

(** The packages [compileErrors] gets to from [pkg]: [pkg] itself, and the
    imports of those among them that are ill-typed and carry no errors of
    their own. *)
Inductive follows : PkgId -> PkgId -> Prop :=
| follows_here pkg : follows pkg pkg
| follows_import pkg path imp pkg' :
    IllTyped (heap pkg) = true -> Errors (heap pkg) = [] ->
    Imports (heap pkg) !! path = Some imp ->
    follows imp pkg' -> follows pkg pkg'.


(** [compileErrors] writes to stderr and does nothing else that is
    recorded. *)
Definition only_stderr (st st' : St) : Prop :=
  exists evs, extends st st' evs /\ Forall (fun e => is_EvStderr e = true) evs.

(** What is synthesized from [pkg] to depth [fuel] when every imports map
    is walked in key order; the yardstick for runs under any schedule. *)
Fixpoint reference (fuel : nat) (pkg : PkgId) : list Problem :=
  match fuel with
  | O => []
  | S fuel' =>
      if negb (IllTyped (heap pkg)) then []
      else
        match Errors (heap pkg) with
        | [] => flat_map (fun imp : string * PkgId => reference fuel' imp.2)
                         (map_to_list (Imports (heap pkg)))
        | errs => map problem_of errs
        end
  end.

(** The loaded packages that did not type-check, and those that did, in
    load order. *)
Definition ill_typed (pkgs : list PkgId) : list PkgId :=
  List.filter (fun pkg => IllTyped (heap pkg)) pkgs.

Definition well_typed (pkgs : list PkgId) : list PkgId :=
  List.filter (fun pkg => negb (IllTyped (heap pkg))) pkgs.

(** The [lint.Linter] that [Lint] builds for the checker [c]. *)
Definition linter_of (o : Options) (ign : list GlobIgnore) (c : CheckerT)
  : Linter CheckerT :=
  {| L_Checker := c; L_Ignores := ign;
     L_GoVersion := GoVersion o; L_ReturnIgnored := ReturnIgnored o |}.

(** The problems before sorting on the path that runs the checkers: those
    synthesized ([rs], one list for each ill-typed package), then the output
    of every checker on the well-typed packages. *)
Definition raw_problems (o : Options) (ign : list GlobIgnore)
    (cs : list CheckerT) (pkgs : list PkgId) (rs : list (list Problem))
  : list Problem :=
  concat rs
  ++ flat_map (fun c => Linter_Lint (linter_of o ign c) (well_typed pkgs)) cs.

(** What a run of [Lint] that got past the parser and the loader returns,
    and what it did: [rs] are the lists synthesized from the ill-typed
    packages, [evs] the lines written to stderr on the way. *)
Definition Lint_outcome sched fuel (cs : list CheckerT) (paths : list string)
    (o : Options) (ign : list GlobIgnore) (pkgs : list PkgId)
    (st : St) (out : list Problem) (st' : St) : Prop :=
  exists rs evs,
    Forall2 (synthesizes sched fuel) (ill_typed pkgs) rs
    /\ Forall (fun e => is_EvStderr e = true) evs
    /\ match well_typed pkgs with
       | [] =>
           out = concat rs
           /\ trace st' = trace st ++ EvLoad (LintTests o) paths :: evs
       | _ :: _ =>
           out = dedup (sort_Slice Problem less
                          (raw_problems o ign cs pkgs rs))
           /\ trace st' =
                trace st ++ EvLoad (LintTests o) paths :: evs
                ++ map (fun c => EvLint (linter_of o ign c) (well_typed pkgs))
                       cs
       end.

(** A problem is an error when its checker is not registered or is
    registered to exit non-zero. *)
Definition counts_as_error (confs : gmap string (CheckerConfig CheckerT))
    (p : Problem) : bool :=
  match confs !! Checker p with
  | None => true
  | Some conf => ExitNonZero _ conf
  end.

(** The two counts of [ProcessFlagSet]. *)
Definition errors_of (confs : gmap string (CheckerConfig CheckerT))
    (ps : list Problem) : Z :=
  Z.of_nat (length (List.filter (counts_as_error confs) ps)).

Definition warnings_of (confs : gmap string (CheckerConfig CheckerT))
    (ps : list Problem) : Z :=
  Z.of_nat (length (List.filter (fun p => negb (counts_as_error confs p)) ps)).

(** The formatter the [switch] on the flag [f] picks. *)
Definition formatter_of (name : string) : option Formatter :=
  if String.eqb name "text" then Some format_Text
  else if String.eqb name "stylish" then Some format_Stylish
  else if String.eqb name "json" then Some format_JSON
  else None.

End DriverSpec.

(** * Worked inputs *)

(** The state a run starts from: no [range] executed, nothing recorded. *)
Definition st0 : St unit := {| ranges := 0; trace := [] |}.
Definition st0_named : St string := {| ranges := 0; trace := [] |}.

(** A position in [file]. *)
Definition at_ (file : string) (offset line column : Z) : token_Position :=
  {| Filename := file; Offset := offset; Line := line; Column := column |}.

Definition well_typed_package : Package :=
  {| IllTyped := false; Errors := []; Imports := ∅ |}.

(** Two type errors. *)
Definition undefined_foo : GoError :=
  types_Error (at_ "a.go" 40 5 1) "undefined: foo".
Definition undefined_bar : GoError :=
  types_Error (at_ "b.go" 61 7 2) "undefined: bar".

(** Package 0 has no errors of its own and imports packages 1 and 2, which
    have one type error each. *)
Definition heap_two_imports (pkg : PkgId) : Package :=
  match pkg with
  | 0%nat => {| IllTyped := true; Errors := [];
                Imports := {[ "a" := 1%nat; "b" := 2%nat ]} |}
  | 1%nat => {| IllTyped := true; Errors := [undefined_foo]; Imports := ∅ |}
  | 2%nat => {| IllTyped := true; Errors := [undefined_bar]; Imports := ∅ |}
  | _ => well_typed_package
  end.

(** A rank for it: the importing package above the imported ones. *)
Definition rank_two_imports (pkg : PkgId) : nat :=
  match pkg with 0%nat => 1%nat | _ => 0%nat end.

(** Packages 0 and 1 import each other and have no errors of their own. *)
Definition heap_cycle (pkg : PkgId) : Package :=
  match pkg with
  | 0%nat => {| IllTyped := true; Errors := [];
                Imports := {[ "b" := 1%nat ]} |}
  | 1%nat => {| IllTyped := true; Errors := [];
                Imports := {[ "a" := 0%nat ]} |}
  | _ => well_typed_package
  end.

(** The problems synthesized from the two type errors. *)
Definition problem_foo : Problem :=
  {| Position := at_ "a.go" 40 5 1; Text := "undefined: foo";
     Checker := "compiler"; Check := "compile" |}.
Definition problem_bar : Problem :=
  {| Position := at_ "b.go" 61 7 2; Text := "undefined: bar";
     Checker := "compiler"; Check := "compile" |}.

(** Package 0 carries an error of another type, as the parser reports them,
    before a type error. *)
Definition heap_unhandled (pkg : PkgId) : Package :=
  match pkg with
  | 0%nat => {| IllTyped := true;
                Errors := [other_error "scanner.ErrorList"; undefined_foo];
                Imports := ∅ |}
  | _ => well_typed_package
  end.

(** Loaders that return package 0, or packages 0 and 1, and a checker run
    that finds nothing. *)
Definition load_pkg0 (tests : bool) (paths : list string)
  : list PkgId * option error := ([0%nat], None).

Definition load_pkgs01 (tests : bool) (paths : list string)
  : list PkgId * option error := ([0%nat; 1%nat], None).

Definition no_problems {C} (l : Linter C) (pkgs : list PkgId) : list Problem :=
  [].

(** Package 0 does not type-check: an undefined name in a function body on
    line 10, and an unused import on line 3, which the type checker reports
    last. *)
Definition undefined_x : GoError :=
  types_Error (at_ "x.go" 120 10 2) "undefined: x".
Definition unused_import : GoError :=
  types_Error (at_ "x.go" 30 3 8) "os imported but not used".

Definition heap_late_error (pkg : PkgId) : Package :=
  match pkg with
  | 0%nat => {| IllTyped := true; Errors := [undefined_x; unused_import];
                Imports := ∅ |}
  | _ => well_typed_package
  end.

(** Every package is well-typed, and the one checker reports one message at
    two places of a generated file that line directives map to the same
    line and column. *)
Definition heap_all_well_typed (pkg : PkgId) : Package := well_typed_package.

Definition unchecked_at (offset : Z) : Problem :=
  {| Position := at_ "parser.y" offset 10 1;
     Text := "error return value not checked";
     Checker := "errcheck"; Check := "errcheck" |}.

Definition two_offsets (l : Linter unit) (pkgs : list PkgId) : list Problem :=
  [unchecked_at 40; unchecked_at 95].

(** Packages 0 and 1 have no errors of their own and both import package 2,
    which has one. *)
Definition heap_shared_import (pkg : PkgId) : Package :=
  match pkg with
  | 0%nat => {| IllTyped := true; Errors := []; Imports := {[ "c" := 2%nat ]} |}
  | 1%nat => {| IllTyped := true; Errors := []; Imports := {[ "c" := 2%nat ]} |}
  | 2%nat => {| IllTyped := true; Errors := [undefined_foo]; Imports := ∅ |}
  | _ => well_typed_package
  end.

(** A checker that reports, under its own name, an unused variable at one
    fixed place. *)
Definition unused_x (l : Linter string) (pkgs : list PkgId) : list Problem :=
  [{| Position := at_ "f.go" 87 10 3; Text := "unused variable x";
      Checker := L_Checker _ l; Check := "U1000" |}].

(** Package 0 has no errors of its own and imports package 1, which fails
    with "undefined: foo". *)
Definition heap_dependent (pkg : PkgId) : Package :=
  match pkg with
  | 0%nat => {| IllTyped := true; Errors := []; Imports := {[ "a" := 1%nat ]} |}
  | 1%nat => {| IllTyped := true; Errors := [undefined_foo]; Imports := ∅ |}
  | _ => well_typed_package
  end.

(** The flags of a plain run with text output, and a checker that reports
    one problem under the name errcheck. *)
Definition flags_text : FlagSet :=
  {| flag_tags := ""; flag_ignore := ""; flag_tests := true; flag_go := 11;
     flag_f := "text"; flag_version := false; flag_show_ignored := false;
     flag_args := ["./..."] |}.

Definition errcheck_problem : Problem :=
  {| Position := at_ "main.go" 210 14 2;
     Text := "error return value not checked";
     Checker := "errcheck"; Check := "errcheck" |}.

Definition errcheck_Lint (l : Linter string) (pkgs : list PkgId)
  : list Problem := [errcheck_problem].

(** No formatter takes statistics. *)
Definition never_stats (f : Formatter) : bool := false.

(** A working directory and a build context that finds every package but
    the one called "bad", and resolves a path to the directory joined with
    it. *)
Definition getwd_w : string * option error := ("/w", None).

Definition import_under (tags : list string) (path wd : string)
  : string * option error :=
  if String.eqb path "bad" then
    (EmptyString, Some (errors_New "cannot find package"))
  else (wd +:+ "/" +:+ path, None).

(** Two ignore rules. *)
Definition two_rules : list GlobIgnore :=
  [{| Pattern := "os/exec/*_test.go"; Checks := ["S1000"; "S1001"] |};
   {| Pattern := "*"; Checks := ["ST1003"] |}].

(** The flags of a run that asks for a format that does not exist. *)
Definition flags_xml : FlagSet :=
  {| flag_tags := "integration"; flag_ignore := EmptyString;
     flag_tests := true; flag_go := 11; flag_f := "xml";
     flag_version := false; flag_show_ignored := false;
     flag_args := ["./..."] |}.


(** * Properties *)

(** ** Comparisons *)

Lemma GoodCmp_Z : GoodCmp Z.compare.
Proof.
  split.
  - intros x y. apply Z.compare_eq_iff.
  - intros x y. apply Z.compare_antisym.
  - intros x y z. rewrite !Z.compare_lt_iff. lia.
Qed.

Lemma GoodCmp_ascii : GoodCmp Ascii.compare.
Proof.
  split.
  - intros x y. split.
    + apply Ascii.compare_eq_iff.
    + intros ->. unfold Ascii.compare. apply N.compare_refl.
  - apply Ascii.compare_antisym.
  - intros x y z. unfold Ascii.compare. rewrite !N.compare_lt_iff. lia.
Qed.

Lemma String_compare_refl s : String.compare s s = Eq.
Proof.
  induction s as [|c s IH]; simpl; [done|].
  by rewrite (proj2 (cmp_eq _ GoodCmp_ascii c c) eq_refl).
Qed.

Lemma String_compare_trans s1 s2 s3 :
  String.compare s1 s2 = Lt -> String.compare s2 s3 = Lt ->
  String.compare s1 s3 = Lt.
Proof.
  revert s2 s3.
  induction s1 as [|a s1 IH]; intros [|b s2] [|c s3]; simpl; try done.
  destruct (Ascii.compare a b) eqn:Hab; try done.
  - apply Ascii.compare_eq_iff in Hab as ->.
    destruct (Ascii.compare b c); try done. apply IH.
  - destruct (Ascii.compare b c) eqn:Hbc; try done.
    + apply Ascii.compare_eq_iff in Hbc as <-. by rewrite Hab.
    + by rewrite (cmp_trans _ GoodCmp_ascii a b c Hab Hbc).
Qed.

Lemma GoodCmp_string : GoodCmp String.compare.
Proof.
  split.
  - intros x y. split.
    + apply String.compare_eq_iff.
    + intros ->. apply String_compare_refl.
  - apply String.compare_antisym.
  - apply String_compare_trans.
Qed.

Lemma GoodCmp_lex {A B} (cA : A -> A -> comparison) (cB : B -> B -> comparison) :
  GoodCmp cA -> GoodCmp cB -> GoodCmp (lex cA cB).
Proof.
  intros HA HB. split.
  - intros [a b] [a' b']. unfold lex. simpl. split.
    + destruct (cA a a') eqn:E; try done.
      intros Hb. apply (cmp_eq _ HA) in E. apply (cmp_eq _ HB) in Hb.
      by subst.
    + intros [= -> ->].
      rewrite (proj2 (cmp_eq _ HA a' a') eq_refl).
      by apply (cmp_eq _ HB).
  - intros [a b] [a' b']. unfold lex. simpl.
    rewrite (cmp_antisym _ HA a a').
    destruct (cA a' a); simpl; try done. apply (cmp_antisym _ HB).
  - intros [a b] [a' b'] [a'' b'']. unfold lex. simpl.
    destruct (cA a a') eqn:E1; try done.
    + apply (cmp_eq _ HA) in E1 as ->.
      destruct (cA a' a''); try done. apply (cmp_trans _ HB).
    + destruct (cA a' a'') eqn:E2; try done.
      * apply (cmp_eq _ HA) in E2 as <-. by rewrite E1.
      * by rewrite (cmp_trans _ HA _ _ _ E1 E2).
Qed.

(** The boolean "less than" of a good comparison is a strict weak order. *)
Lemma GoodCmp_StrictWeakOrder {A K} (key : A -> K) (c : K -> K -> comparison) :
  GoodCmp c ->
  StrictWeakOrder (fun x y => if c (key x) (key y) is Lt then true else false).
Proof.
  intros H. split.
  - intros x. by rewrite (proj2 (cmp_eq _ H (key x) (key x)) eq_refl).
  - intros x y z Hxy Hyz.
    destruct (c (key x) (key y)) eqn:E1; try done.
    destruct (c (key y) (key z)) eqn:E2; try done.
    by rewrite (cmp_trans _ H _ _ _ E1 E2).
  - intros x y z Hxy Hyz.
    destruct (c (key x) (key z)) eqn:E; try done. exfalso.
    destruct (c (key x) (key y)) eqn:E1; try done.
    + apply (cmp_eq _ H) in E1. rewrite <- E1, E in Hyz. done.
    + destruct (c (key y) (key z)) eqn:E2; try done.
      * apply (cmp_eq _ H) in E2. rewrite E2, E in E1. done.
      * rewrite (cmp_antisym _ H) in E1, E2.
        destruct (c (key y) (key x)) eqn:E1'; try done.
        destruct (c (key z) (key y)) eqn:E2'; try done.
        pose proof (cmp_trans _ H _ _ _ E2' E1') as E3.
        rewrite (cmp_antisym _ H), E3 in E. done.
Qed.

Lemma GoodCmp_key : GoodCmp key_compare.
Proof.
  unfold key_compare.
  auto using GoodCmp_lex, GoodCmp_string, GoodCmp_Z.
Qed.

Lemma String_eqb_compare a b :
  String.eqb a b = if String.compare a b is Eq then true else false.
Proof.
  destruct (String.eqb_spec a b) as [->|Hne].
  - by rewrite String_compare_refl.
  - destruct (String.compare a b) eqn:E; try done.
    by apply String.compare_eq_iff in E.
Qed.

Lemma Z_eqb_compare a b : (a =? b) = if a ?= b is Eq then true else false.
Proof. by rewrite Z.eqb_compare. Qed.

Lemma Z_ltb_compare a b : (a <? b) = if a ?= b is Lt then true else false.
Proof. by rewrite Z.ltb_compare. Qed.

(** [less] is the "less than" of the key comparison. *)
Lemma less_key_compare p q :
  less p q = if key_compare (key p) (key q) is Lt then true else false.
Proof.
  unfold less, key_compare, key, lex, String.ltb. simpl.
  rewrite String_eqb_compare, !Z_eqb_compare, !Z_ltb_compare.
  destruct (String.compare (Filename (Position p)) (Filename (Position q)));
    simpl; try done.
  destruct (Line (Position p) ?= Line (Position q)); simpl; try done.
  destruct (Column (Position p) ?= Column (Position q)); simpl; done.
Qed.

Lemma less_StrictWeakOrder : StrictWeakOrder less.
Proof.
  pose proof (GoodCmp_StrictWeakOrder key key_compare GoodCmp_key) as H.
  split.
  - intros x. rewrite less_key_compare. apply (swo_irrefl _ H).
  - intros x y z. rewrite !less_key_compare. apply (swo_trans _ H).
  - intros x y z. rewrite !less_key_compare. apply (swo_incomp _ H).
Qed.

Lemma key_le_less p q : key_le p q <-> less q p = false.
Proof.
  rewrite less_key_compare, (cmp_antisym _ GoodCmp_key).
  unfold key_le, str_lt, key_compare, key, lex. simpl.
  destruct (String.compare (Filename (Position p)) (Filename (Position q)))
    eqn:Ef.
  - apply String.compare_eq_iff in Ef as Ef'. rewrite Ef'.
    destruct (Z.compare_spec (Line (Position p)) (Line (Position q)))
      as [El|El|El].
    + destruct (Z.compare_spec (Column (Position p)) (Column (Position q)))
        as [Ec|Ec|Ec].
      * destruct (String.compare (Text p) (Text q)) eqn:Et; simpl.
        -- apply String.compare_eq_iff in Et. naive_solver.
        -- naive_solver.
        -- split; [|done]. intros [?|[_ [?|[_ [?|[_ [?|Ht]]]]]]];
             try done; try lia.
           rewrite Ht, String_compare_refl in Et. done.
      * simpl. naive_solver.
      * simpl. split; [|done].
        intros [?|[_ [?|[_ [?|[? _]]]]]]; try done; lia.
    + simpl. naive_solver.
    + simpl. split; [|done]. intros [?|[_ [?|[? _]]]]; try done; lia.
  - simpl. naive_solver.
  - simpl. split; [|done]. intros [?|[Hf _]]; [done|].
    rewrite Hf, String_compare_refl in Ef. done.
Qed.

Lemma StronglySorted_lookup {A} (R : A -> A -> Prop) (l : list A) :
  StronglySorted R l ->
  forall i j x y, (i < j)%nat -> l !! i = Some x -> l !! j = Some y -> R x y.
Proof.
  induction 1 as [|a l Hl IH Ha]; intros i j x y Hij Hi Hj.
  - done.
  - destruct j as [|j]; [lia|]. simpl in Hj.
    destruct i as [|i]; simpl in Hi.
    + injection Hi as <-. rewrite Forall_forall in Ha.
      apply Ha. by eapply list_elem_of_lookup_2.
    + eapply IH; [|done..]. lia.
Qed.

Lemma StronglySorted_sublist {A} (R : A -> A -> Prop) (l k : list A) :
  sublist k l -> StronglySorted R l -> StronglySorted R k.
Proof.
  induction 1 as [|x k l Hs IH|x k l Hs IH]; intros Hl.
  - constructor.
  - apply StronglySorted_inv in Hl as [Hl Hx]. constructor; [by apply IH|].
    rewrite Forall_forall in Hx |- *. intros y Hy. apply Hx.
    by apply (sublist_subseteq _ _ Hs).
  - apply StronglySorted_inv in Hl as [Hl _]. by apply IH.
Qed.

(** ** A function that meets the sorting contract: stable insertion sort *)

Lemma insert_perm {A} (lt : A -> A -> bool) x l :
  Permutation (insert lt x l) (x :: l).
Proof.
  induction l as [|y l IH]; simpl; [done|].
  destruct (lt y x); [|done].
  rewrite IH. apply perm_swap.
Qed.

Lemma insertion_sort_perm A (lt : A -> A -> bool) l :
  Permutation (insertion_sort A lt l) l.
Proof.
  induction l as [|x l IH]; simpl; [done|].
  by rewrite insert_perm, IH.
Qed.

Lemma insert_sorted {A} (lt : A -> A -> bool) x l :
  StrictWeakOrder lt ->
  StronglySorted (fun a b => lt b a = false) l ->
  StronglySorted (fun a b => lt b a = false) (insert lt x l).
Proof.
  intros Hswo. induction 1 as [|y l Hl IH Hy]; simpl.
  - repeat constructor.
  - destruct (lt y x) eqn:Hyx.
    + constructor; [done|].
      rewrite (insert_perm lt x l). constructor; [|done].
      destruct (lt x y) eqn:Hxy; [|done].
      pose proof (swo_trans _ Hswo _ _ _ Hxy Hyx) as Hxx.
      by rewrite (swo_irrefl _ Hswo) in Hxx.
    + constructor; [by constructor|].
      constructor; [done|].
      rewrite Forall_forall in Hy |- *. intros z Hz.
      eapply (swo_incomp _ Hswo); [by apply Hy|done].
Qed.

Lemma insertion_sort_sorted A (lt : A -> A -> bool) l :
  StrictWeakOrder lt ->
  StronglySorted (fun a b => lt b a = false) (insertion_sort A lt l).
Proof.
  intros Hswo. induction l as [|x l IH]; simpl; [constructor|].
  by apply insert_sorted.
Qed.

Lemma insertion_sort_sorts : sorts insertion_sort.
Proof.
  split; [apply insertion_sort_perm|apply insertion_sort_sorted].
Qed.

(** ** Removal of adjacent duplicates *)

Lemma Position_eqb_eq a b : Position_eqb a b = true <-> a = b.
Proof.
  unfold Position_eqb. rewrite !andb_true_iff, String.eqb_eq, !Z.eqb_eq.
  destruct a, b; simpl. split; [intros [[[-> ->] ->] ->]|intros [= -> -> -> ->]];
    done.
Qed.

(** Two problems are the same to the duplicate filter iff their positions
    and texts agree; the checker and the check are not looked at. *)
Lemma same_spec p q :
  same p q = true <-> Position p = Position q /\ Text p = Text q.
Proof. unfold same. by rewrite andb_true_iff, Position_eqb_eq, String.eqb_eq. Qed.

Lemma uniq_loop l u prev :
  (fold_left uniq_step l (u, prev)).1 = u ++ collapse_from prev l.
Proof.
  revert u prev. induction l as [|p l IH]; intros u prev; simpl.
  - by rewrite app_nil_r.
  - destruct (same prev p); [apply IH|].
    rewrite IH. by rewrite <- app_assoc.
Qed.

Lemma dedup_collapse l :
  dedup l = match l with [] => [] | p :: l' => p :: collapse_from p l' end.
Proof.
  destruct l as [|p [|q l]]; try done.
  change (dedup (p :: q :: l)) with (fold_left uniq_step (q :: l) ([p], p)).1.
  by rewrite uniq_loop.
Qed.

Lemma collapse_from_chain prev l : chain prev (collapse_from prev l).
Proof.
  revert prev. induction l as [|p l IH]; intros prev; simpl; [done|].
  destruct (same prev p) eqn:E; [apply IH|]. simpl. split; [done|apply IH].
Qed.

Lemma chain_no_adjacent_same p l : chain p l -> no_adjacent_same (p :: l).
Proof.
  revert p. induction l as [|q l IH]; intros p Hc i a b Ha Hb.
  - destruct i; simpl in Hb; done.
  - destruct Hc as [Hpq Hc]. destruct i as [|i]; simpl in Ha, Hb.
    + congruence.
    + by eapply (IH q Hc i).
Qed.

Lemma dedup_no_adjacent_same l : no_adjacent_same (dedup l).
Proof.
  rewrite dedup_collapse. destruct l as [|p l].
  - intros i a b Ha. by destruct i.
  - apply chain_no_adjacent_same, collapse_from_chain.
Qed.

Lemma collapse_from_sublist prev l : collapse_from prev l `sublist_of` l.
Proof.
  revert prev. induction l as [|p l IH]; intros prev; simpl; [done|].
  destruct (same prev p).
  - apply sublist_cons, IH.
  - apply sublist_skip, IH.
Qed.

Lemma dedup_sublist l : dedup l `sublist_of` l.
Proof.
  rewrite dedup_collapse. destruct l as [|p l]; [done|].
  apply sublist_skip, collapse_from_sublist.
Qed.

Lemma collapse_from_runs prev l :
  exists ds runs,
    l = ds ++ flat_map run_of runs
    /\ Forall (fun d => same prev d = true) ds
    /\ collapse_from prev l = map fst runs
    /\ Forall is_run runs.
Proof.
  revert prev. induction l as [|p l IH]; intros prev; simpl.
  - exists [], []. repeat split; constructor.
  - destruct (same prev p) eqn:E.
    + destruct (IH prev) as (ds & runs & -> & Hds & -> & Hruns).
      exists (p :: ds), runs. repeat split; [by constructor|done].
    + destruct (IH p) as (ds & runs & -> & Hds & -> & Hruns).
      exists [], ((p, ds) :: runs). repeat split; [constructor|by constructor].
Qed.

(** The slice is cut into runs, and the first problem of each run is what
    remains. *)
Lemma dedup_runs l :
  exists runs,
    l = flat_map run_of runs /\ dedup l = map fst runs /\ Forall is_run runs.
Proof.
  rewrite dedup_collapse. destruct l as [|p l].
  - exists []. repeat split; constructor.
  - destruct (collapse_from_runs p l) as (ds & runs & -> & Hds & -> & Hruns).
    exists ((p, ds) :: runs). repeat split. by constructor.
Qed.

(** ** Decimal numerals and strconv.Atoi *)

Lemma is_digit_range c : is_digit c = true -> 0 <= digit c <= 9.
Proof. unfold is_digit, digit. rewrite andb_true_iff, !Z.leb_le. lia. Qed.

Lemma value_from_ge n s : all_digits s = true -> 0 <= n -> n <= value_from n s.
Proof.
  revert n. induction s as [|c r IH]; intros n Hd Hn; simpl in *; [lia|].
  apply andb_true_iff in Hd as [Hc Hr]. apply is_digit_range in Hc.
  etrans; [|apply IH]; [lia|done|lia].
Qed.

Lemma maxUint64_eq : maxUint64 = 18446744073709551615.
Proof. reflexivity. Qed.

(** On digits the loop computes the value, or stops with a range error when
    the value does not fit 64 bits. *)
Lemma ParseUint_loop_digits n s :
  all_digits s = true -> 0 <= n <= maxUint64 ->
  ParseUint_loop n s =
  if value_from n s <=? maxUint64 then (value_from n s, None)
  else (maxUint64, Some ErrRange).
Proof.
  revert n. induction s as [|c r IH]; intros n Hd Hn; simpl in *.
  - destruct (Z.leb_spec n maxUint64); [done|lia].
  - apply andb_true_iff in Hd as [Hc Hr]. rewrite Hc.
    apply is_digit_range in Hc.
    pose proof (value_from_ge (n * 10 + digit c) r Hr) as Hge.
    rewrite maxUint64_eq in *.
    change (18446744073709551615 / 10 + 1) with 1844674407370955162.
    destruct (Z.geb_spec n 1844674407370955162) as [Hcut|Hcut].
    + destruct (Z.leb_spec (value_from (n * 10 + digit c) r)
                           18446744073709551615); [lia|done].
    + destruct (Z.gtb_spec (n * 10 + digit c) 18446744073709551615)
        as [Hov|Hov].
      * destruct (Z.leb_spec (value_from (n * 10 + digit c) r)
                             18446744073709551615); [lia|done].
      * rewrite IH; [done|done|lia].
Qed.

(** A byte that is not a digit makes the loop fail, with a syntax error at
    that byte or with a range error before it. *)
Lemma ParseUint_loop_not_digits n s :
  all_digits s = false ->
  ParseUint_loop n s = (0, Some ErrSyntax)
  \/ ParseUint_loop n s = (maxUint64, Some ErrRange).
Proof.
  revert n. induction s as [|c r IH]; intros n Hd; simpl in *; [done|].
  destruct (is_digit c); simpl in Hd; [|by left].
  destruct (n >=? maxUint64 / 10 + 1); [by right|].
  destruct (n * 10 + digit c >? maxUint64); [by right|].
  by apply IH.
Qed.

(** [Atoi] succeeds exactly on an optional sign followed by a numeral whose
    value is in the range of [int], and returns that value. *)
Lemma Atoi_ok t N :
  strconv_Atoi t = (N, None) <->
  exists sign d,
    t = sign +:+ d /\ is_sign sign /\ numeral d
    /\ N = signed_value sign d /\ minInt <= N <= maxInt.
Proof.
  assert (forall body neg t0,
             body <> EmptyString ->
             (match ParseUint body with
              | (_, Some ErrSyntax) => (0, Some (NumError "Atoi" t0 ErrSyntax))
              | (un, _) =>
                  if negb neg && (un >=? 2 ^ 63) then
                    (maxInt, Some (NumError "Atoi" t0 ErrRange))
                  else if neg && (un >? 2 ^ 63) then
                    (minInt, Some (NumError "Atoi" t0 ErrRange))
                  else (if neg then - un else un, None)
              end = (N, None)
              <-> all_digits body = true
                  /\ N = (if neg then - decimal_value body
                          else decimal_value body)
                  /\ minInt <= N <= maxInt)) as Hbody.
  { intros body neg t0 Hne.
    assert (ParseUint body = ParseUint_loop 0 body) as ->
        by (by destruct body).
    destruct (all_digits body) eqn:Hd.
    - rewrite (ParseUint_loop_digits 0 body Hd) by (rewrite maxUint64_eq; lia).
      pose proof (value_from_ge 0 body Hd) as Hge. fold (decimal_value body) in *.
      unfold minInt, maxInt. rewrite maxUint64_eq.
      change (2 ^ 63) with 9223372036854775808.
      destruct (Z.leb_spec (decimal_value body) 18446744073709551615).
      + destruct neg; simpl.
        * destruct (Z.gtb_spec (decimal_value body) 9223372036854775808).
          -- split; [done|]. intros (_ & -> & ?). lia.
          -- split; [intros [= <-]; lia|]. by intros (_ & -> & ?).
        * destruct (Z.geb_spec (decimal_value body) 9223372036854775808).
          -- split; [done|]. intros (_ & -> & ?). lia.
          -- split; [intros [= <-]; lia|]. by intros (_ & -> & ?).
      + destruct neg; simpl; (split; [done|]); intros (_ & -> & ?); lia.
    - destruct (ParseUint_loop_not_digits 0 body Hd) as [-> | ->].
      + split; [done|]. by intros [? _].
      + unfold minInt, maxInt. rewrite maxUint64_eq.
        destruct neg; simpl; (split; [done|]); by intros [? _]. }
  destruct t as [|c r].
  { simpl. split; [done|].
    intros (sign & d & Ht & _ & [Hne _] & _).
    destruct sign; [by destruct d|done]. }
  assert (forall sign d,
             String c r = sign +:+ d -> is_sign sign -> numeral d ->
             (sign = EmptyString /\ d = String c r /\ is_digit c = true)
             \/ (sign = "+" /\ c = "+"%char /\ d = r)
             \/ (sign = "-" /\ c = "-"%char /\ d = r)) as Hsign.
  { intros sign d Ht [-> | [-> | ->]] [Hne Hd].
    - change (EmptyString +:+ d) with d in Ht. subst d. left.
      simpl in Hd. by apply andb_true_iff in Hd as [? _].
    - change ("+" +:+ d) with (String "+" d) in Ht. injection Ht as -> ->.
      right; by left.
    - change ("-" +:+ d) with (String "-" d) in Ht. injection Ht as -> ->.
      right; by right. }
  unfold strconv_Atoi.
  destruct (Ascii.eqb_spec c "-") as [->|Hminus].
  - rewrite orb_true_r.
    destruct r as [|c' r'].
    { simpl. split; [done|].
      intros (sign & d & Ht & Hs & Hn & _).
      destruct (Hsign _ _ Ht Hs Hn)
        as [(_ & -> & Hc) | [(_ & [=] & _) | (_ & _ & ->)]]; [done|].
      by destruct Hn. }
    rewrite Hbody by done. split.
    + intros (Hd & -> & Hr). exists "-", (String c' r').
      repeat split; first [done | lia | by right; right | by right; left | by left].
    + intros (sign & d & Ht & Hs & Hn & -> & Hr).
      destruct (Hsign _ _ Ht Hs Hn)
        as [(_ & -> & Hc) | [(_ & [=] & _) | (-> & _ & ->)]]; [done|].
      by destruct Hn.
  - destruct (Ascii.eqb_spec c "+") as [->|Hplus].
    + simpl orb. cbv iota.
      destruct r as [|c' r'].
      { simpl. split; [done|].
        intros (sign & d & Ht & Hs & Hn & _).
        destruct (Hsign _ _ Ht Hs Hn)
          as [(_ & -> & Hc) | [(_ & _ & ->) | (_ & [=] & _)]]; [done|].
        by destruct Hn. }
      rewrite Hbody by done. split.
      * intros (Hd & -> & Hr). exists "+", (String c' r').
        repeat split; first [done | lia | by right; right | by right; left | by left].
      * intros (sign & d & Ht & Hs & Hn & -> & Hr).
        destruct (Hsign _ _ Ht Hs Hn)
          as [(_ & -> & Hc) | [(-> & _ & ->) | (_ & [=] & _)]]; [done|].
        by destruct Hn.
    + simpl orb. cbv iota. rewrite Hbody by done. split.
      * intros (Hd & -> & Hr). exists EmptyString, (String c r).
        repeat split; first [done | lia | by right; right | by right; left | by left].
      * intros (sign & d & Ht & Hs & Hn & -> & Hr).
        destruct (Hsign _ _ Ht Hs Hn)
          as [(-> & -> & Hc) | [(_ & -> & _) | (_ & -> & _)]]; [|done..].
        by destruct Hn.
Qed.

(** When [Atoi] fails it returns 0 with a syntax error, or a bound of [int]
    with a range error. *)
Lemma Atoi_error t i e :
  strconv_Atoi t = (i, Some e) ->
  (e = NumError "Atoi" t ErrSyntax /\ i = 0)
  \/ (e = NumError "Atoi" t ErrRange /\ (i = maxInt \/ i = minInt)).
Proof.
  unfold strconv_Atoi. destruct t as [|c r]; [intros [= <- <-]; by left|].
  destruct (ParseUint _) as [un [e0|]]; [destruct e0|].
  - intros [= <- <-]. by left.
  - destruct (negb _ && _); [intros [= <- <-]; right; by split; [|left]|].
    destruct (_ && _); [intros [= <- <-]; right; by split; [|right]|done].
  - destruct (negb _ && _); [intros [= <- <-]; right; by split; [|left]|].
    destruct (_ && _); [intros [= <- <-]; right; by split; [|right]|done].
Qed.

(** ** versionFlag.Set *)

Lemma versionFlag_Set_unfold s v :
  versionFlag_Set s v =
  match s with
  | String c0 (String c1 (String c2 r)) =>
      if Ascii.eqb c0 "1" then
        if Ascii.eqb c1 "." then strconv_Atoi (String c2 r)
        else (v, Some invalid_version)
      else (v, Some invalid_version)
  | _ => (v, Some invalid_version)
  end.
Proof.
  destruct s as [|c0 [|c1 [|c2 r]]]; try done.
  unfold versionFlag_Set.
  change (String.length (String c0 (String c1 (String c2 r))) <? 3)%nat
    with false.
  change (index (String c0 (String c1 (String c2 r))) 0) with c0.
  change (index (String c0 (String c1 (String c2 r))) 1) with c1.
  change (slice_from 2 (String c0 (String c1 (String c2 r))))
    with (String c2 r).
  destruct (Ascii.eqb c0 "1"); [|done].
  destruct (Ascii.eqb c1 "."); [|done].
  cbv iota. by destruct (strconv_Atoi (String c2 r)).
Qed.

(** C9, as amended. [Set] returns no error exactly on the strings made of
    "1.", an optional sign and a decimal numeral whose signed value lies
    between [minInt] and [maxInt], and then stores that value; on every other
    string it returns an error. *)
Theorem versionFlag_Set_accepts s v :
  (forall N, versionFlag_Set s v = (N, None) <-> accepted_version s N)
  /\ ((forall N, ~ accepted_version s N) ->
      exists v' e, versionFlag_Set s v = (v', Some e)).
Proof.
  assert (forall N, versionFlag_Set s v = (N, None) <-> accepted_version s N)
    as Hiff.
  { intros N. rewrite versionFlag_Set_unfold. unfold accepted_version.
    assert (forall x, "1." +:+ x = String "1" (String "." x)) as Hpre by done.
    destruct s as [|c0 [|c1 [|c2 r]]].
    - split; [done|]. intros (sign & d & Ht & _). by rewrite Hpre in Ht.
    - split; [done|]. intros (sign & d & Ht & _). by rewrite Hpre in Ht.
    - split; [done|]. intros (sign & d & Ht & Hs & [Hne _] & _).
      rewrite Hpre in Ht. injection Ht as _ _ Ht.
      destruct Hs as [-> | [-> | ->]]; [by destruct d|done..].
    - destruct (Ascii.eqb_spec c0 "1") as [->|Hc0].
      + destruct (Ascii.eqb_spec c1 ".") as [->|Hc1].
        * rewrite Atoi_ok. split.
          -- intros (sign & d & -> & H). by exists sign, d.
          -- intros (sign & d & Ht & H). rewrite Hpre in Ht.
             injection Ht as Ht. by exists sign, d.
        * split; [done|]. intros (sign & d & Ht & _). rewrite Hpre in Ht.
          by injection Ht as ? _.
      + split; [done|]. intros (sign & d & Ht & _). rewrite Hpre in Ht.
        by injection Ht as ? _. }
  split; [done|]. intros Hnone.
  destruct (versionFlag_Set s v) as [N [e|]] eqn:E; [by exists N, e|].
  exfalso. by apply (Hnone N), Hiff.
Qed.

(** C10, as amended. When the text after "1." fails to parse, [Set] returns
    the parser's error and has overwritten the stored value with the
    parser's result, whatever was stored: 0 after a syntax error, [maxInt] or
    [minInt] after a range error. *)
Theorem versionFlag_Set_overwrites_on_parse_error rest v i e :
  rest <> EmptyString ->
  strconv_Atoi rest = (i, Some e) ->
  versionFlag_Set ("1." +:+ rest) v = (i, Some e)
  /\ ((e = NumError "Atoi" rest ErrSyntax /\ i = 0)
      \/ (e = NumError "Atoi" rest ErrRange /\ (i = maxInt \/ i = minInt))).
Proof.
  intros Hne Hparse. split; [|by apply Atoi_error].
  rewrite versionFlag_Set_unfold.
  change ("1." +:+ rest) with (String "1" (String "." rest)).
  by destruct rest.
Qed.

(** ** Lists without adjacent duplicates are left alone *)

Lemma chain_collapse prev l : chain prev l -> collapse_from prev l = l.
Proof.
  revert prev. induction l as [|p l IH]; intros prev; simpl; [done|].
  intros [-> Hc]. by rewrite IH.
Qed.

Lemma no_adjacent_same_chain p l : no_adjacent_same (p :: l) -> chain p l.
Proof.
  revert p. induction l as [|q l IH]; intros p H; simpl; [done|]. split.
  - by apply (H 0%nat).
  - apply IH. intros i a b Ha Hb. by apply (H (S i)).
Qed.

(** X2. The loop that drops duplicates returns a list unchanged exactly when
    no element of it is the same, in position and message, as the one before
    it; so running it a second time changes nothing. *)
Theorem dedup_fixed_points l :
  (dedup l = l <-> no_adjacent_same l) /\ dedup (dedup l) = dedup l.
Proof.
  assert (forall k, no_adjacent_same k -> dedup k = k) as Hfix.
  { intros k Hk. rewrite dedup_collapse. destruct k as [|p k]; [done|].
    f_equal. by apply chain_collapse, no_adjacent_same_chain. }
  split; [split|].
  - intros <-. apply dedup_no_adjacent_same.
  - apply Hfix.
  - apply Hfix, dedup_no_adjacent_same.
Qed.


(** ** Strictly increasing keys *)

Lemma key_le_compare p q :
  key_le p q <-> key_compare (key q) (key p) <> Lt.
Proof.
  rewrite key_le_less, less_key_compare.
  by destruct (key_compare (key q) (key p)).
Qed.

Lemma key_le_antisym p q : key_le p q -> key_le q p -> key p = key q.
Proof.
  rewrite !key_le_compare, (cmp_antisym _ GoodCmp_key (key q) (key p)).
  intros H1 H2. apply (cmp_eq _ GoodCmp_key).
  by destruct (key_compare (key p) (key q)).
Qed.

Lemma sorted_no_adjacent_strict l :
  sorted_by_key l -> no_adjacent_same l -> offsets_agree l ->
  forall i j d1 d2,
    (i < j)%nat -> l !! i = Some d1 -> l !! j = Some d2 -> key d1 <> key d2.
Proof.
  intros Hs Hn Ho i j a b Hij Ha Hb Hk.
  destruct (lookup_lt_is_Some_2 l (S i)) as [c Hc].
  { apply lookup_lt_Some in Hb. lia. }
  assert (key_le a c) as Hac by (apply (Hs i (S i)); [lia|done..]).
  assert (key_le c a) as Hca.
  { apply key_le_compare. rewrite Hk. apply key_le_compare.
    destruct (decide (S i = j)) as [<-|Hne].
    - assert (c = b) as -> by congruence.
      apply key_le_compare. by rewrite (proj2 (cmp_eq _ GoodCmp_key _ _) eq_refl).
    - apply (Hs (S i) j); [lia|done..]. }
  pose proof (key_le_antisym a c Hac Hca) as Hkey.
  injection Hkey as Hf Hl Hcol Ht.
  assert (Offset (Position a) = Offset (Position c)) as Hoff.
  { apply Ho; try done; apply list_elem_of_In;
      by eapply list_elem_of_lookup_2. }
  assert (same a c = true) as Hsame.
  { apply same_spec. split; [|done].
    destruct (Position a), (Position c). simpl in *. congruence. }
  rewrite (Hn i a c Ha Hc) in Hsame. done.
Qed.


(** ** versionFlag.String *)

Lemma digit_char_digit d :
  0 <= d <= 9 -> is_digit (digit_char d) = true /\ digit (digit_char d) = d.
Proof.
  intros Hd.
  assert (d = 0 \/ d = 1 \/ d = 2 \/ d = 3 \/ d = 4 \/ d = 5 \/ d = 6
          \/ d = 7 \/ d = 8 \/ d = 9) as Hcases by lia.
  repeat (destruct Hcases as [-> | Hcases]; [by split|]).
  by subst.
Qed.

Lemma value_from_shift n s :
  value_from n s = n * 10 ^ Z.of_nat (String.length s) + decimal_value s.
Proof.
  unfold decimal_value. revert n.
  induction s as [|c r IH]; intros n; simpl String.length; simpl value_from.
  - change (10 ^ Z.of_nat 0) with 1. lia.
  - rewrite (IH (n * 10 + digit c)), (IH (0 * 10 + digit c)).
    rewrite Nat2Z.inj_succ, Z.pow_succ_r by lia. ring.
Qed.

Lemma format_digits_S fuel u acc :
  format_digits (S fuel) u acc
  = if u / 10 =? 0 then String (digit_char (u mod 10)) acc
    else format_digits fuel (u / 10) (String (digit_char (u mod 10)) acc).
Proof. reflexivity. Qed.

(** The digits written denote the number they were written for. *)
Lemma format_digits_value fuel u acc :
  0 <= u < 10 ^ Z.of_nat (S fuel) -> all_digits acc = true ->
  all_digits (format_digits (S fuel) u acc) = true
  /\ format_digits (S fuel) u acc <> EmptyString
  /\ decimal_value (format_digits (S fuel) u acc)
     = u * 10 ^ Z.of_nat (String.length acc) + decimal_value acc.
Proof.
  revert u acc. induction fuel as [|fuel IH]; intros u acc Hu Hacc;
    rewrite format_digits_S;
    pose proof (Z.div_mod u 10 ltac:(lia)) as Hdm;
    pose proof (Z.mod_pos_bound u 10 ltac:(lia)) as Hr;
    destruct (digit_char_digit (u mod 10) ltac:(lia)) as [Hisd Hdig];
    assert (all_digits (String (digit_char (u mod 10)) acc) = true) as Hacc'
      by (simpl; by rewrite Hisd, Hacc);
    assert (decimal_value (String (digit_char (u mod 10)) acc)
            = (u mod 10) * 10 ^ Z.of_nat (String.length acc)
              + decimal_value acc) as Hval
      by (unfold decimal_value at 1; simpl value_from;
          rewrite value_from_shift, Hdig; lia);
    destruct (Z.eqb_spec (u / 10) 0) as [Hq|Hq].
  - split; [done|]. split; [done|]. rewrite Hval. f_equal. f_equal. lia.
  - exfalso. change (10 ^ Z.of_nat 1) with 10 in Hu.
    apply Hq, Z.div_small. lia.
  - split; [done|]. split; [done|]. rewrite Hval. f_equal. f_equal. lia.
  - destruct (IH (u / 10) (String (digit_char (u mod 10)) acc))
      as (H1 & H2 & H3); [|done|].
    + rewrite (Nat2Z.inj_succ (S fuel)), Z.pow_succ_r in Hu by lia.
      split; [apply Z.div_pos; lia|].
      apply Z.div_lt_upper_bound; lia.
    + split; [done|]. split; [done|]. rewrite H3, Hval.
      simpl String.length. rewrite Nat2Z.inj_succ, Z.pow_succ_r by lia.
      set (P := 10 ^ Z.of_nat (String.length acc)) in *.
      rewrite Hdm at 3. ring.
Qed.

Lemma format_digits_numeral u :
  0 <= u <= 2 ^ 63 ->
  numeral (format_digits 20 u EmptyString)
  /\ decimal_value (format_digits 20 u EmptyString) = u.
Proof.
  intros Hu.
  destruct (format_digits_value 19 u EmptyString) as (H1 & H2 & H3).
  - change (10 ^ Z.of_nat 20) with 100000000000000000000.
    change (2 ^ 63) with 9223372036854775808 in Hu. lia.
  - done.
  - split; [by split|]. rewrite H3. simpl. change (10 ^ 0) with 1.
    unfold decimal_value. simpl. lia.
Qed.

Lemma FormatInt_Atoi v :
  minInt <= v <= maxInt -> strconv_Atoi (FormatInt v) = (v, None).
Proof.
  intros Hv. apply Atoi_ok. unfold FormatInt, minInt, maxInt in *.
  destruct (Z.ltb_spec v 0) as [Hneg|Hpos].
  - destruct (format_digits_numeral (- v)) as [Hn Hval]; [lia|].
    exists "-", (format_digits 20 (- v) EmptyString).
    repeat split; try apply Hn; try lia.
    + by right; right.
    + change (signed_value "-" (format_digits 20 (- v) EmptyString))
        with (- decimal_value (format_digits 20 (- v) EmptyString)). lia.
  - destruct (format_digits_numeral v) as [Hn Hval]; [lia|].
    exists EmptyString, (format_digits 20 v EmptyString).
    repeat split; try apply Hn; try lia.
    + by left.
    + change (signed_value EmptyString (format_digits 20 v EmptyString))
        with (decimal_value (format_digits 20 v EmptyString)). lia.
Qed.

(** X3. What [String] prints, [Set] reads back: for every [int] the text
    [String] makes of it is accepted by [Set], which stores that very value,
    whatever was stored before. *)
Theorem versionFlag_String_Set_round_trip v v0 :
  minInt <= v <= maxInt ->
  versionFlag_Set (versionFlag_String v) v0 = (v, None)
  /\ versionFlag_Get (versionFlag_Set (versionFlag_String v) v0).1 = v.
Proof.
  intros Hv.
  assert (versionFlag_Set (versionFlag_String v) v0 = (v, None)) as Heq.
  { rewrite versionFlag_Set_unfold. unfold versionFlag_String.
    change ("1." +:+ FormatInt v) with (String "1" (String "." (FormatInt v))).
    pose proof (FormatInt_Atoi v Hv) as Hat.
    destruct (FormatInt v) as [|c r]; [done|]. exact Hat. }
  split; [done|]. by rewrite Heq.
Qed.

(** X4. [Set] gives up before parsing, with the error "invalid Go version" and
    the stored value untouched, exactly on the texts that are not "1."
    followed by at least one byte; on "1." followed by [rest] its result is
    that of [strconv.Atoi] on [rest]. *)
Theorem versionFlag_Set_invalid_leaves_value s v :
  ((versionFlag_Set s v).2 = Some invalid_version <->
   forall rest, rest <> EmptyString -> s <> "1." +:+ rest)
  /\ ((versionFlag_Set s v).2 = Some invalid_version ->
      (versionFlag_Set s v).1 = v)
  /\ (forall rest, rest <> EmptyString -> s = "1." +:+ rest ->
                   versionFlag_Set s v = strconv_Atoi rest).
Proof.
  assert (forall x, "1." +:+ x = String "1" (String "." x)) as Hpre by done.
  assert (forall rest, (strconv_Atoi rest).2 <> Some invalid_version)
    as Hatoi.
  { intros rest H. destruct (strconv_Atoi rest) as [i e] eqn:E.
    simpl in H. subst e.
    by destruct (Atoi_error _ _ _ E) as [[? _] | [? _]]. }
  rewrite versionFlag_Set_unfold.
  destruct s as [|c0 [|c1 [|c2 r]]];
    [| |
     |destruct (Ascii.eqb_spec c0 "1") as [->|Hc0];
      [destruct (Ascii.eqb_spec c1 ".") as [->|Hc1]|]].
  4: { split; [split|split].
       - intros H. by apply Hatoi in H.
       - intros H. exfalso. by apply (H (String c2 r)).
       - intros H. by apply Hatoi in H.
       - intros rest _ H. rewrite Hpre in H. by injection H as <-. }
  all: (split;
        [split; [intros _ rest Hne H; rewrite Hpre in H; congruence | done]
        |split; [done | intros rest Hne H; rewrite Hpre in H; congruence]]).
Qed.

(** ** strings.Split and parseIgnore *)

Lemma Split_length s sep :
  length (strings_Split s sep) = S (count_byte sep s).
Proof.
  induction s as [|c r IH]; simpl; [done|].
  destruct (Ascii.eqb c sep); simpl; [by rewrite IH|].
  destruct (strings_Split r sep); simpl in *; done.
Qed.

Lemma Split_none s sep : count_byte sep s = 0%nat -> strings_Split s sep = [s].
Proof.
  induction s as [|c r IH]; simpl; [done|].
  destruct (Ascii.eqb c sep); simpl; [done|].
  intros H. by rewrite IH.
Qed.

Lemma Split_one s sep :
  count_byte sep s = 1%nat -> strings_Split s sep = [before sep s; after sep s].
Proof.
  induction s as [|c r IH]; simpl; [done|].
  destruct (Ascii.eqb c sep); simpl.
  - intros [= H]. by rewrite Split_none.
  - intros H. by rewrite IH.
Qed.

Lemma parseIgnore_loop_ok out parts :
  Forall (fun tok => count_byte ":" tok = 1%nat) parts ->
  parseIgnore_loop out parts = (out ++ map rule_of parts, None).
Proof.
  intros H. revert out. induction H as [|tok parts Htok _ IH]; intros out; simpl.
  - by rewrite app_nil_r.
  - rewrite Split_length, Htok. simpl. rewrite IH, Split_one by done. simpl.
    by rewrite <- app_assoc.
Qed.

Lemma parseIgnore_loop_malformed out parts :
  Exists (fun tok => count_byte ":" tok <> 1%nat) parts ->
  parseIgnore_loop out parts = ([], Some malformed).
Proof.
  intros H. revert out. induction parts as [|tok parts IH]; intros out.
  - by apply Exists_nil in H.
  - simpl. rewrite Split_length.
    destruct (decide (count_byte ":" tok = 1%nat)) as [Htok|Htok].
    + rewrite Htok. simpl. apply IH.
      apply Exists_cons in H as [H|H]; done.
    + destruct (Nat.eqb_spec (S (count_byte ":" tok)) 2); [lia|done].
Qed.

Lemma Forall_or_Exists_colons parts :
  Forall (fun tok => count_byte ":" tok = 1%nat) parts
  \/ Exists (fun tok => count_byte ":" tok <> 1%nat) parts.
Proof.
  induction parts as [|tok parts [IH|IH]].
  - left. constructor.
  - destruct (decide (count_byte ":" tok = 1%nat)).
    + left. by constructor.
    + right. by left.
  - right. by right.
Qed.

Lemma parseIgnore_Fields s :
  parseIgnore s = parseIgnore_loop [] (strings_Fields s).
Proof. unfold parseIgnore. by destruct s. Qed.

(** ** Rendering rules and reading them back *)

Lemma append_cons c a b : String c a +:+ b = String c (a +:+ b).
Proof. reflexivity. Qed.

Lemma append_empty_l a : EmptyString +:+ a = a.
Proof. reflexivity. Qed.

Lemma append_empty_r a : a +:+ EmptyString = a.
Proof. induction a as [|c a IH]; [done|]. by rewrite append_cons, IH. Qed.

Lemma append_snoc a c b : (a +:+ String c EmptyString) +:+ b = a +:+ String c b.
Proof. induction a as [|c' a IH]; [done|]. by rewrite !append_cons, IH. Qed.

Lemma join_cons sep x y l :
  join sep (x :: y :: l) = x +:+ String sep (join sep (y :: l)).
Proof. reflexivity. Qed.

Lemma count_byte_append c a b :
  count_byte c (a +:+ b) = (count_byte c a + count_byte c b)%nat.
Proof.
  induction a as [|c' a IH]; [done|]. rewrite append_cons. simpl.
  rewrite IH. lia.
Qed.

Lemma Split_not_nil s sep : strings_Split s sep <> [].
Proof.
  intros H. pose proof (Split_length s sep) as Hl. rewrite H in Hl. done.
Qed.

(** [strings.Join] undoes [strings.Split]. *)
Lemma join_Split s sep : join sep (strings_Split s sep) = s.
Proof.
  induction s as [|c r IH]; [done|]. simpl strings_Split.
  pose proof (Split_not_nil r sep) as Hne.
  destruct (Ascii.eqb_spec c sep) as [->|Hc].
  - destruct (strings_Split r sep) as [|h t]; [done|].
    by rewrite join_cons, IH.
  - destruct (strings_Split r sep) as [|h [|x t]]; [done| |].
    + simpl in *. by rewrite IH.
    + rewrite join_cons, append_cons. rewrite join_cons in IH. by rewrite IH.
Qed.

Lemma Split_pieces s sep c :
  Forall (fun x => (count_byte c x <= count_byte c s)%nat
                   /\ count_byte sep x = 0%nat) (strings_Split s sep).
Proof.
  induction s as [|c' r IH]; simpl strings_Split.
  - by repeat constructor.
  - pose proof (Split_not_nil r sep) as Hne.
    destruct (Ascii.eqb_spec c' sep) as [->|Hc].
    + constructor; [simpl; split; [lia|done]|].
      eapply Forall_impl; [exact IH|]. simpl. intros x [H1 H2]. split; [lia|done].
    + destruct (strings_Split r sep) as [|h t]; [done|].
      apply Forall_cons in IH as [[H1 H2] IH]. constructor.
      * simpl. split; [lia|]. by destruct (Ascii.eqb_spec c' sep).
      * eapply Forall_impl; [exact IH|]. simpl. intros x [H3 H4].
        split; [lia|done].
Qed.

Lemma Split_append s r sep :
  count_byte sep s = 0%nat ->
  strings_Split (s +:+ String sep r) sep = s :: strings_Split r sep.
Proof.
  induction s as [|c s IH]; intros Hs.
  - rewrite append_empty_l. simpl. by rewrite Ascii.eqb_refl.
  - rewrite append_cons. simpl in *.
    destruct (Ascii.eqb c sep); [done|]. by rewrite IH.
Qed.

(** [strings.Split] undoes [strings.Join] on pieces free of the separator. *)
Lemma Split_join sep l :
  l <> [] -> Forall (fun x => count_byte sep x = 0%nat) l ->
  strings_Split (join sep l) sep = l.
Proof.
  induction l as [|x [|y l] IH]; intros Hne Hl; [done| |].
  - simpl. apply Split_none. by apply Forall_cons in Hl as [? _].
  - apply Forall_cons in Hl as [Hx Hl].
    rewrite join_cons, Split_append by done. by rewrite IH.
Qed.

Lemma before_after s sep :
  (1 <= count_byte sep s)%nat ->
  before sep s +:+ String sep (after sep s) = s
  /\ count_byte sep (before sep s) = 0%nat
  /\ count_byte sep (after sep s) = (count_byte sep s - 1)%nat.
Proof.
  induction s as [|c s IH]; simpl; [lia|].
  destruct (Ascii.eqb_spec c sep) as [->|Hc].
  - intros _. repeat split. simpl. lia.
  - simpl. intros H. destruct (IH H) as (H1 & H2 & H3).
    rewrite append_cons, H1. repeat split; [|done].
    simpl. by destruct (Ascii.eqb_spec c sep).
Qed.

Lemma before_after_append p x sep :
  count_byte sep p = 0%nat ->
  before sep (p +:+ String sep x) = p /\ after sep (p +:+ String sep x) = x.
Proof.
  induction p as [|c p IH]; intros Hp.
  - rewrite append_empty_l. simpl. by rewrite Ascii.eqb_refl.
  - rewrite append_cons. simpl in *. destruct (Ascii.eqb c sep); [done|].
    destruct (IH Hp) as [-> ->]. done.
Qed.

Lemma count_byte_join c sep l :
  c <> sep -> Forall (fun x => count_byte c x = 0%nat) l ->
  count_byte c (join sep l) = 0%nat.
Proof.
  intros Hc. induction l as [|x [|y l] IH]; intros Hl; [done| |].
  - by apply Forall_cons in Hl as [? _].
  - apply Forall_cons in Hl as [Hx Hl].
    rewrite join_cons, count_byte_append, Hx. cbn [count_byte Nat.add].
    destruct (Ascii.eqb_spec sep c) as [->|_]; [done|]. by rewrite IH.
Qed.

Lemma rule_of_shaped tok :
  count_byte ":" tok = 1%nat -> shaped (rule_of tok) /\ render (rule_of tok) = tok.
Proof.
  intros Htok. destruct (before_after tok ":") as (H1 & H2 & H3); [lia|].
  rewrite Htok in H3. split; [split; [done|split]|].
  - apply Split_not_nil.
  - simpl. eapply Forall_impl; [apply (Split_pieces _ "," ":")|].
    simpl. intros x [Hx1 Hx2]. split; [done|lia].
  - unfold render. simpl. by rewrite join_Split.
Qed.

Lemma render_rule_of r : shaped r -> rule_of (render r) = r.
Proof.
  intros (Hp & Hne & Hc). unfold rule_of, render.
  destruct (before_after_append (Pattern r) (join "," (Checks r)) ":" Hp)
    as [-> ->].
  rewrite Split_join; [by destruct r|done|].
  eapply Forall_impl; [exact Hc|]. by intros x [? _].
Qed.

Lemma render_colons r : shaped r -> count_byte ":" (render r) = 1%nat.
Proof.
  intros (Hp & Hne & Hc). unfold render.
  rewrite count_byte_append, Hp. simpl.
  rewrite count_byte_join; [done|done|].
  eapply Forall_impl; [exact Hc|]. by intros x [_ ?].
Qed.

Lemma plain_append a b : plain (a +:+ b) = plain a && plain b.
Proof.
  induction a as [|c a IH]; [done|]. rewrite append_cons. simpl.
  rewrite IH. by rewrite andb_assoc.
Qed.

Lemma plain_join l :
  Forall (fun c => plain c = true) l -> plain (join "," l) = true.
Proof.
  induction l as [|x [|y l] IH]; intros Hl; [done| |].
  - by apply Forall_cons in Hl as [? _].
  - apply Forall_cons in Hl as [Hx Hl].
    rewrite join_cons, plain_append, Hx.
    change (plain (String "," (join "," (y :: l))))
      with (plain (join "," (y :: l))). by rewrite IH.
Qed.

Lemma render_plain r :
  plain_rule r -> render r <> EmptyString /\ plain (render r) = true.
Proof.
  intros [Hp Hc]. unfold render. split.
  - by destruct (Pattern r).
  - rewrite plain_append, Hp.
    change (plain (String ":" (join "," (Checks r))))
      with (plain (join "," (Checks r))). by rewrite plain_join.
Qed.

Lemma space_width_plain c r :
  (byte c <? 128) && negb (is_ascii_space c) = true ->
  space_width (String c r) = 0%nat.
Proof.
  intros H. apply andb_true_iff in H as [Hlt Hns].
  apply Z.ltb_lt in Hlt. apply negb_true_iff in Hns.
  unfold is_ascii_space in Hns. unfold space_width. rewrite Hns.
  assert ((byte c =? 194) = false) as -> by (apply Z.eqb_neq; lia).
  assert ((byte c =? 225) = false) as -> by (apply Z.eqb_neq; lia).
  assert ((byte c =? 226) = false) as -> by (apply Z.eqb_neq; lia).
  assert ((byte c =? 227) = false) as -> by (apply Z.eqb_neq; lia).
  by destruct r as [|c1 [|c2 r2]].
Qed.

Lemma Fields_loop_plain tok cur rest :
  plain tok = true ->
  Fields_loop 0 cur (tok +:+ rest) = Fields_loop 0 (cur +:+ tok) rest.
Proof.
  revert cur. induction tok as [|c tok IH]; intros cur Hp.
  - by rewrite append_empty_l, append_empty_r.
  - simpl in Hp. apply andb_true_iff in Hp as [Hc Hp].
    rewrite append_cons. cbn [Fields_loop].
    rewrite (space_width_plain c (tok +:+ rest) Hc).
    rewrite IH by done. by rewrite append_snoc.
Qed.

Lemma Fields_loop_blank cur r :
  Fields_loop 0 cur (String " " r) = flush cur ++ Fields_loop 0 EmptyString r.
Proof. reflexivity. Qed.

(** Fields written with one blank between them are read back as they are. *)
Lemma Fields_join toks :
  Forall (fun t => t <> EmptyString /\ plain t = true) toks ->
  strings_Fields (join " " toks) = toks.
Proof.
  unfold strings_Fields.
  induction toks as [|x [|y l] IH]; intros Hl; [done| |].
  - apply Forall_cons in Hl as [[Hne Hx] _]. simpl join.
    rewrite <- (append_empty_r x) at 1.
    rewrite Fields_loop_plain, append_empty_l by done.
    simpl. by destruct x.
  - apply Forall_cons in Hl as [[Hne Hx] Hl].
    rewrite join_cons, Fields_loop_plain, append_empty_l by done.
    rewrite Fields_loop_blank, IH by done. by destruct x.
Qed.

(** X5. Reading then writing. When [parseIgnore] accepts a text, every rule it
    returns has a pattern without colon and at least one check, no check
    holding a comma or a colon; and writing each rule as pattern, colon,
    checks joined by commas gives back the fields of the text, one rule for
    each field, in order. *)
Theorem parseIgnore_render_gives_fields s rules :
  parseIgnore s = (rules, None) ->
  Forall shaped rules /\ map render rules = strings_Fields s.
Proof.
  rewrite parseIgnore_Fields.
  destruct (Forall_or_Exists_colons (strings_Fields s)) as [Hall|Hex].
  - rewrite parseIgnore_loop_ok by done. simpl. intros [= <-].
    induction Hall as [|tok parts Htok _ [IH1 IH2]]; [done|].
    destruct (rule_of_shaped tok Htok) as [Hs Hr]. split.
    + by constructor.
    + simpl. by rewrite Hr, IH2.
  - by rewrite parseIgnore_loop_malformed.
Qed.

(** X6. Writing then reading. Rules of that form whose pattern and checks are
    made of ASCII bytes other than white space, written one after the other
    with a blank between them, are accepted by [parseIgnore], which returns
    these very rules. *)
Theorem parseIgnore_reads_rendered_rules rules :
  Forall shaped rules -> Forall plain_rule rules ->
  parseIgnore (join " " (map render rules)) = (rules, None).
Proof.
  intros Hs Hp. rewrite parseIgnore_Fields, Fields_join.
  - rewrite parseIgnore_loop_ok.
    + simpl. f_equal. induction Hs as [|r rules Hr _ IH]; [done|].
      apply Forall_cons in Hp as [_ Hp]. simpl.
      by rewrite render_rule_of, IH.
    + apply Forall_map. eapply Forall_impl; [exact Hs|].
      intros r Hr. by apply render_colons.
  - apply Forall_map. eapply Forall_impl; [exact Hp|].
    intros r Hr. by apply render_plain.
Qed.


(** ** resolveRelative *)

Lemma length_append_string a b :
  String.length (a +:+ b) = (String.length a + String.length b)%nat.
Proof.
  induction a as [|c a IH]; [done|]. rewrite append_cons. simpl. by rewrite IH.
Qed.

Lemma slice_from_append pre suf :
  slice_from (String.length pre) (pre +:+ suf) = suf.
Proof. induction pre as [|c pre IH]; [done|]. by rewrite append_cons. Qed.

Lemma slice_from_split n s :
  (n <= String.length s)%nat ->
  exists pre, s = pre +:+ slice_from n s /\ String.length pre = n.
Proof.
  revert s. induction n as [|n IH]; intros s Hn.
  - by exists EmptyString.
  - destruct s as [|c s]; simpl in Hn; [lia|].
    destruct (IH s ltac:(lia)) as (pre & Hs & Hl).
    exists (String c pre). simpl. rewrite append_cons, <- Hs. by rewrite Hl.
Qed.

Lemma HasSuffix_spec s suffix :
  strings_HasSuffix s suffix = true <-> exists pre, s = pre +:+ suffix.
Proof.
  unfold strings_HasSuffix. rewrite andb_true_iff, Nat.leb_le, String.eqb_eq.
  split.
  - intros [Hle Heq].
    destruct (slice_from_split (String.length s - String.length suffix) s)
      as (pre & Hs & _); [lia|].
    exists pre. by rewrite Heq in Hs.
  - intros [pre ->]. rewrite length_append_string. split; [lia|].
    replace (String.length pre + String.length suffix - String.length suffix)%nat
      with (String.length pre) by lia.
    apply slice_from_append.
Qed.

Lemma resolve_loop_app imp tags wd resolved done rest :
  Forall (fun p => (imp tags p wd).2 = None) done ->
  resolve_loop imp tags wd resolved (done ++ rest)
  = resolve_loop imp tags wd
      (resolved ++ map (fun p => (imp tags p wd).1) done) rest.
Proof.
  intros H. revert resolved.
  induction H as [|p done Hp _ IH]; intros resolved; simpl.
  - by rewrite app_nil_r.
  - destruct (imp tags p wd) as [ip e]. simpl in *. subst e.
    by rewrite IH, <- app_assoc.
Qed.

(** X7. The paths are taken for Go files exactly when there is a first
    path and it ends in ".go", whatever the other paths are; then, and when
    there is no path at all, the paths are returned as they came, with no
    error, neither the working directory nor the build context having any
    say. *)
Theorem resolveRelative_go_files os_Getwd build_Import importPaths tags :
  ((resolveRelative os_Getwd build_Import importPaths tags).1.2 = true <->
   exists pre rest, importPaths = (pre +:+ ".go") :: rest)
  /\ ((importPaths = [] \/ exists pre rest, importPaths = (pre +:+ ".go") :: rest) ->
      (resolveRelative os_Getwd build_Import importPaths tags).1.1 = importPaths
      /\ (resolveRelative os_Getwd build_Import importPaths tags).2 = None).
Proof.
  unfold resolveRelative. destruct importPaths as [|p rest];
    cbn [length Nat.eqb nth].
  { split; [split; [done|by intros (? & ? & ?)]|done]. }
  destruct (strings_HasSuffix p ".go") eqn:E.
  - apply HasSuffix_spec in E as [pre ->].
    split; [split; [by exists pre, rest|done]|done].
  - assert (~ exists pre rest', p :: rest = (pre +:+ ".go") :: rest') as Hno.
    { intros (pre & rest' & [= -> _]).
      assert (strings_HasSuffix (pre +:+ ".go") ".go" = true) as H
          by (apply HasSuffix_spec; by exists pre).
      congruence. }
    split; [split; [|done]|by intros [?|?]].
    destruct os_Getwd as [wd [e|]]; [done|].
    by destruct (resolve_loop build_Import tags wd [] (p :: rest)).
Qed.

(** X8. Past the test for Go files and with the working directory known,
    the paths are replaced one by one, from the first on, by the import path
    the build context resolves them to. If all resolve, all are replaced. If
    one does not, the function stops there with an error that names it: the
    paths before it stay replaced, it and the paths after it stay as they
    came. *)
Theorem resolveRelative_rewrites_until_failure
    os_Getwd build_Import importPaths tags wd :
  os_Getwd = (wd, None) ->
  importPaths <> [] ->
  strings_HasSuffix (nth 0 importPaths EmptyString) ".go" = false ->
  (Forall (fun p => (build_Import tags p wd).2 = None) importPaths ->
   resolveRelative os_Getwd build_Import importPaths tags
   = (map (fun p => (build_Import tags p wd).1) importPaths, false, None))
  /\ (forall done bad rest e,
         importPaths = done ++ bad :: rest ->
         Forall (fun p => (build_Import tags p wd).2 = None) done ->
         (build_Import tags bad wd).2 = Some e ->
         resolveRelative os_Getwd build_Import importPaths tags
         = (map (fun p => (build_Import tags p wd).1) done ++ bad :: rest,
            false, Some (cant_load_package bad e))).
Proof.
  intros -> Hne Hgo. unfold resolveRelative. rewrite Hgo.
  destruct importPaths as [|p0 ps]; [done|]. cbn [length Nat.eqb].
  split.
  - intros Hall.
    rewrite <- (app_nil_r (p0 :: ps)) at 1.
    by rewrite resolve_loop_app.
  - intros done bad rest e -> Hdone Hbad.
    rewrite resolve_loop_app by done. simpl.
    destruct (build_Import tags bad wd) as [ip e']. simpl in Hbad. by subst e'.
Qed.

(** ** FlagSet *)

Lemma versionFlag_Set_accepted s v N :
  versionFlag_Set s v = (N, None) <-> accepted_version s N.
Proof.
  rewrite versionFlag_Set_unfold. unfold accepted_version.
  assert (forall x, "1." +:+ x = String "1" (String "." x)) as Hpre by done.
  destruct s as [|c0 [|c1 [|c2 r]]].
  - split; [done|]. intros (sign & d & Ht & _). by rewrite Hpre in Ht.
  - split; [done|]. intros (sign & d & Ht & _). by rewrite Hpre in Ht.
  - split; [done|]. intros (sign & d & Ht & Hs & [Hne _] & _).
    rewrite Hpre in Ht. injection Ht as _ _ Ht.
    destruct Hs as [-> | [-> | ->]]; [by destruct d|done..].
  - destruct (Ascii.eqb_spec c0 "1") as [->|Hc0].
    + destruct (Ascii.eqb_spec c1 ".") as [->|Hc1].
      * rewrite Atoi_ok. split.
        -- intros (sign & d & -> & H). by exists sign, d.
        -- intros (sign & d & Ht & H). rewrite Hpre in Ht.
           injection Ht as Ht. by exists sign, d.
      * split; [done|]. intros (sign & d & Ht & _). rewrite Hpre in Ht.
        by injection Ht as ? _.
    + split; [done|]. intros (sign & d & Ht & _). rewrite Hpre in Ht.
      by injection Ht as ? _.
Qed.

(** X9. [FlagSet] returns a flag set, and does not panic, exactly when
    the list of release tags is not empty and its last tag is two bytes (the
    "go" of "go1.11") followed by a version that [versionFlag.Set] accepts.
    The flags then start from: no tags, no ignore text, tests included, the
    format "text", no version request, ignored problems not shown, and as
    target version the number read from that last tag, whatever the earlier
    tags are. *)
Theorem FlagSet_defaults ReleaseTags fs :
  lintutil_FlagSet ReleaseTags = inl fs <->
  exists earlier c0 c1 rest N,
    ReleaseTags = earlier ++ [String c0 (String c1 rest)]
    /\ accepted_version rest N
    /\ fs = default_flags N.
Proof.
  unfold lintutil_FlagSet. split.
  - destruct (last ReleaseTags) as [tag|] eqn:Hlast; [|done].
    apply last_Some in Hlast as [earlier ->].
    destruct tag as [|c0 [|c1 rest]]; [done..|].
    change (String.length (String c0 (String c1 rest)) <? 2)%nat with false.
    change (slice_from 2 (String c0 (String c1 rest))) with rest.
    destruct (versionFlag_Set rest 0) as [N [e|]] eqn:E; [done|].
    intros [= <-]. exists earlier, c0, c1, rest, N.
    split; [done|]. split; [by apply (versionFlag_Set_accepted rest 0)|done].
  - intros (earlier & c0 & c1 & rest & N & -> & Hacc & ->).
    rewrite last_snoc.
    change (String.length (String c0 (String c1 rest)) <? 2)%nat with false.
    change (slice_from 2 (String c0 (String c1 rest))) with rest.
    apply (versionFlag_Set_accepted rest 0) in Hacc. by rewrite Hacc.
Qed.


(** ** The monad and the loops *)

Section DriverFacts.

Context (CheckerT : Type) (heap : PkgId -> Package).
Context (packages_Load : bool -> list string -> list PkgId * option error).
Context (sort_Slice : forall A : Type, (A -> A -> bool) -> list A -> list A).
Context (Linter_Lint : Linter CheckerT -> list PkgId -> list Problem).
#[local] Abbreviation M := (M CheckerT).
#[local] Abbreviation St := (St CheckerT).
#[local] Abbreviation Event := (Event CheckerT).
#[local] Abbreviation stderr_of := (stderr_of CheckerT).
#[local] Abbreviation extends := (extends CheckerT).
#[local] Abbreviation is_EvLint := (is_EvLint CheckerT).
#[local] Abbreviation is_EvLoad := (is_EvLoad CheckerT).
#[local] Abbreviation is_EvStderr := (is_EvStderr CheckerT).
#[local] Abbreviation synthesizes := (synthesizes CheckerT heap).
#[local] Abbreviation ranked := (ranked heap).
#[local] Abbreviation only_stderr := (only_stderr CheckerT).
#[local] Abbreviation reference := (reference heap).
#[local] Abbreviation ill_typed := (ill_typed heap).
#[local] Abbreviation well_typed := (well_typed heap).
#[local] Abbreviation linter_of := (linter_of CheckerT).
#[local] Abbreviation raw_problems := (raw_problems CheckerT heap Linter_Lint).
#[local] Abbreviation Lint_outcome := (Lint_outcome CheckerT heap sort_Slice Linter_Lint).
#[local] Abbreviation follows := (follows heap).
#[local] Abbreviation counts_as_error := (counts_as_error CheckerT).
#[local] Abbreviation errors_of := (errors_of CheckerT).
#[local] Abbreviation warnings_of := (warnings_of CheckerT).

Lemma extends_refl st : extends st st [].
Proof. unfold extends. by rewrite app_nil_r. Qed.

Lemma extends_trans st1 st2 st3 evs1 evs2 :
  extends st1 st2 evs1 -> extends st2 st3 evs2 ->
  extends st1 st3 (evs1 ++ evs2).
Proof. unfold extends. intros H1 H2. by rewrite H2, H1, app_assoc. Qed.

Lemma foldM_app {A B} (f : B -> A -> M B) b l1 l2 st :
  foldM f b (l1 ++ l2) st =
  match foldM f b l1 st with
  | Some (b', st') => foldM f b' l2 st'
  | None => None
  end.
Proof.
  revert b st. induction l1 as [|x l1 IH]; intros b st; simpl; [done|].
  unfold mbind, M_bind. destruct (f b x st) as [[b' st']|]; [|done].
  apply IH.
Qed.

(** The loop over [pkg.Errors] adds one problem for each error, whatever
    its type, and one stderr line for each error that is not a
    [types.Error]. *)
Lemma explicit_errors_loop acc errs st :
  foldM compileErrors_step acc errs st =
  Some (acc ++ map problem_of errs,
        {| ranges := ranges st;
           trace := trace st ++ flat_map stderr_of errs |}).
Proof.
  revert acc st. induction errs as [|e errs IH]; intros acc st; simpl.
  - unfold mret, M_ret. rewrite !app_nil_r. by destruct st.
  - unfold mbind, M_bind.
    destruct e as [pos msg|t]; simpl; unfold mbind, mret, M_bind, M_ret, emit;
      simpl; rewrite IH; simpl; rewrite <- !app_assoc; done.
Qed.

(** The loop over the imports: every import is synthesized once, in the
    order of the list, and the results are appended. *)
Lemma import_loop sched fuel acc (imps : list (string * PkgId))
    (st : St) r (st' : St) :
  foldM
    (fun ps imp =>
       ps' ← compileErrors heap sched fuel imp.2; mret (ps ++ ps'))
    acc imps st = Some (r, st') ->
  exists rs,
    Forall2 (fun imp ps => synthesizes sched fuel imp.2 ps) imps rs
    /\ r = acc ++ concat rs.
Proof.
  revert acc st. induction imps as [|imp imps IH]; intros acc st; simpl.
  - unfold mret, M_ret. intros [= <- <-]. exists [].
    split; [constructor|]. by rewrite app_nil_r.
  - unfold mbind, M_bind at 1.
    unfold mbind, M_bind at 1.
    destruct (compileErrors heap sched fuel imp.2 st)
      as [[ps st1]|] eqn:E; [|done].
    unfold mret, M_ret at 1. intros H.
    apply IH in H as (rs & Hrs & ->).
    exists (ps :: rs). split.
    + constructor; [|done]. by exists st, st1.
    + simpl. by rewrite app_assoc.
Qed.

(** A loop all of whose rounds return, returns. *)
Lemma foldM_total {A B} (f : B -> A -> M B) b l st :
  (forall b x st, x ∈ l -> exists r, f b x st = Some r) ->
  exists r, foldM f b l st = Some r.
Proof.
  revert b st. induction l as [|x l IH]; intros b st Hf; simpl.
  - by eexists.
  - unfold mbind, M_bind.
    destruct (Hf b x st) as [[b' st'] ->]; [by left|].
    apply IH. intros b0 y st0 Hy. apply Hf. by right.
Qed.

(** A loop whose rounds are replaced by rounds that return the same
    whenever the old ones return, returns the same. *)
Lemma foldM_mono {A B} (f g : B -> A -> M B) b l st r :
  (forall b x st r, x ∈ l -> f b x st = Some r -> g b x st = Some r) ->
  foldM f b l st = Some r -> foldM g b l st = Some r.
Proof.
  revert b st. induction l as [|x l IH]; intros b st Hfg; simpl; [done|].
  unfold mbind, M_bind.
  destruct (f b x st) as [[b' st']|] eqn:E; [|done].
  rewrite (Hfg _ _ _ _ (list_elem_of_here _ _) E).
  apply IH. intros b0 y st0 r0 Hy. apply Hfg. by right.
Qed.

(** A relation between states that every round establishes holds for the
    loop, if it is reflexive and transitive. *)
Lemma foldM_inv {A B} (f : B -> A -> M B) (I : St -> St -> Prop) b l st r st' :
  (forall st, I st st) ->
  (forall st1 st2 st3, I st1 st2 -> I st2 st3 -> I st1 st3) ->
  (forall b x st r st', x ∈ l -> f b x st = Some (r, st') -> I st st') ->
  foldM f b l st = Some (r, st') -> I st st'.
Proof.
  intros Hrefl Htrans. revert b st.
  induction l as [|x l IH]; intros b st Hf; simpl.
  - unfold mret, M_ret. by intros [= <- <-].
  - unfold mbind, M_bind.
    destruct (f b x st) as [[b1 st1]|] eqn:E; [|done].
    intros H. eapply Htrans.
    + eapply Hf; [by left|done].
    + eapply IH; [|done]. intros b0 y st0 r0 st0' Hy. apply Hf. by right.
Qed.

(** *** compileErrors *)

Lemma compileErrors_S sched fuel pkg :
  compileErrors (CheckerT := CheckerT) heap sched (S fuel) pkg =
  if negb (IllTyped (heap pkg)) then mret []
  else if (length (Errors (heap pkg)) =? 0)%nat then
    imps ← range_map sched (Imports (heap pkg));
    foldM (fun ps imp =>
             ps' ← compileErrors heap sched fuel imp.2; mret (ps ++ ps'))
          [] imps
  else foldM compileErrors_step [] (Errors (heap pkg)).
Proof. reflexivity. Qed.

(** More fuel does not change a result. *)
Lemma compileErrors_fuel_S sched fuel pkg (st : St) r :
  compileErrors heap sched fuel pkg st = Some r ->
  compileErrors heap sched (S fuel) pkg st = Some r.
Proof.
  revert pkg st r. induction fuel as [|fuel IH]; intros pkg st r; [done|].
  rewrite (compileErrors_S sched (S fuel)), (compileErrors_S sched fuel).
  destruct (negb (IllTyped (heap pkg))); [done|].
  destruct (length (Errors (heap pkg)) =? 0)%nat; [|done].
  unfold mbind at 1 3, M_bind, range_map.
  apply foldM_mono. intros b x st0 r0 _. unfold mbind, M_bind.
  destruct (compileErrors heap sched fuel x.2 st0) as [[ps st1]|] eqn:E;
    [|done].
  by rewrite (IH _ _ _ E).
Qed.

Lemma compileErrors_fuel_le sched fuel fuel' pkg (st : St) r :
  (fuel <= fuel')%nat ->
  compileErrors heap sched fuel pkg st = Some r ->
  compileErrors heap sched fuel' pkg st = Some r.
Proof.
  induction 1 as [|fuel' Hle IH]; [done|].
  intros H. by apply compileErrors_fuel_S, IH.
Qed.

Lemma compileErrors_returns sched rank fuel pkg (st : St) :
  ranked rank -> (rank pkg < fuel)%nat ->
  exists r, compileErrors heap sched fuel pkg st = Some r.
Proof.
  intros Hrank. revert pkg st.
  induction fuel as [|fuel IH]; intros pkg st Hlt; [lia|].
  rewrite compileErrors_S.
  destruct (IllTyped (heap pkg)) eqn:Hill; simpl; [|by eexists].
  destruct (Errors (heap pkg)) as [|e errs] eqn:Herr.
  - simpl. unfold mbind at 1, M_bind, range_map.
    apply foldM_total. intros b [path imp] st0 Hin. unfold mbind, M_bind.
    rewrite (order_perm sched) in Hin.
    apply elem_of_map_to_list in Hin.
    specialize (Hrank _ _ _ Hill Herr Hin). simpl.
    destruct (IH imp st0) as [[ps st1] ->]; [lia|by eexists].
  - cbn [length Nat.eqb]. rewrite explicit_errors_loop. by eexists.
Qed.

Lemma only_stderr_refl st : only_stderr st st.
Proof. exists []. split; [apply extends_refl|constructor]. Qed.

Lemma only_stderr_trans st1 st2 st3 :
  only_stderr st1 st2 -> only_stderr st2 st3 -> only_stderr st1 st3.
Proof.
  intros (evs1 & H1 & F1) (evs2 & H2 & F2). exists (evs1 ++ evs2).
  split; [by eapply extends_trans|by apply Forall_app].
Qed.

Lemma compileErrors_only_stderr sched fuel pkg (st : St) r st' :
  compileErrors heap sched fuel pkg st = Some (r, st') -> only_stderr st st'.
Proof.
  revert pkg st r st'.
  induction fuel as [|fuel IH]; intros pkg st r st'; [done|].
  rewrite compileErrors_S.
  destruct (negb (IllTyped (heap pkg))).
  { intros [= <- <-]. apply only_stderr_refl. }
  destruct (length (Errors (heap pkg)) =? 0)%nat.
  - unfold mbind at 1, M_bind, range_map. intros H.
    apply (only_stderr_trans _
             {| ranges := S (ranges st); trace := trace st |}).
    { exists []. split; [|constructor].
      unfold extends. simpl. by rewrite app_nil_r. }
    revert H. apply foldM_inv.
    + apply only_stderr_refl.
    + apply only_stderr_trans.
    + intros b x st0 r0 st0' _. unfold mbind, M_bind.
      destruct (compileErrors heap sched fuel x.2 st0) as [[ps st1]|] eqn:E;
        [|done].
      intros [= <- <-]. by eapply IH.
  - rewrite explicit_errors_loop. intros [= <- <-].
    exists (flat_map stderr_of (Errors (heap pkg))). split; [done|].
    induction (Errors (heap pkg)) as [|[pos msg|t] errs IHe]; simpl;
      [constructor|done|by constructor].
Qed.

Lemma Forall2_concat_perm {A} (f : A -> list Problem) (l : list A) rs :
  Forall2 (fun x r => Permutation r (f x)) l rs ->
  Permutation (concat rs) (flat_map f l).
Proof.
  induction 1 as [|x r l rs Hx _ IH]; simpl; [done|].
  by apply Permutation_app.
Qed.

(** Whatever the schedule, a run returns the reference up to the order of
    the list. *)
Lemma compileErrors_reference sched fuel pkg (st : St) ps st' :
  compileErrors heap sched fuel pkg st = Some (ps, st') ->
  Permutation ps (reference fuel pkg).
Proof.
  revert pkg st ps st'.
  induction fuel as [|fuel IH]; intros pkg st ps st'; [done|].
  rewrite compileErrors_S. simpl.
  destruct (negb (IllTyped (heap pkg))); [by intros [= <- <-]|].
  destruct (Errors (heap pkg)) as [|e errs] eqn:Herr.
  - simpl. unfold mbind at 1, M_bind, range_map. intros H.
    apply import_loop in H as (rs & Hrs & ->). simpl.
    etrans; [|apply Permutation_flat_map, (order_perm sched (ranges st))].
    apply Forall2_concat_perm.
    eapply Forall2_impl; [exact Hrs|].
    intros imp r (st1 & st2 & Hrun). by eapply IH.
  - cbn [length Nat.eqb]. rewrite explicit_errors_loop.
    by intros [= <- <-].
Qed.

(** Two runs on the same package return the same problems, possibly in a
    different order. *)
Lemma compileErrors_perm sched1 sched2 fuel1 fuel2 pkg
    (st1 st2 : St) ps1 ps2 st1' st2' :
  compileErrors heap sched1 fuel1 pkg st1 = Some (ps1, st1') ->
  compileErrors heap sched2 fuel2 pkg st2 = Some (ps2, st2') ->
  Permutation ps1 ps2.
Proof.
  intros H1 H2.
  apply (compileErrors_fuel_le _ _ (fuel1 `max` fuel2)) in H1; [|lia].
  apply (compileErrors_fuel_le _ _ (fuel1 `max` fuel2)) in H2; [|lia].
  apply compileErrors_reference in H1, H2. by rewrite H1, H2.
Qed.

(** C3, as amended. [compileErrors] keeps no set of visited packages; it
    returns whenever the imports it follows (those of ill-typed packages
    that carry no errors of their own) descend along some rank, that is,
    contain no cycle: fuel above the rank of the package is enough. *)
Theorem compileErrors_terminates_when_acyclic
    sched rank fuel pkg (st : St) :
  ranked rank -> (rank pkg < fuel)%nat ->
  exists ps st', compileErrors heap sched fuel pkg st = Some (ps, st').
Proof.
  intros Hrank Hlt.
  destruct (compileErrors_returns sched rank fuel pkg st Hrank Hlt)
    as [[ps st'] H].
  by exists ps, st'.
Qed.

(** C8, as amended. For an ill-typed package without errors of its own, a
    run returns the concatenation of what is synthesized from its imports,
    in the order in which that run's [range] walks the [Imports] map. The
    order is the schedule's, not the program's: any other run returns a
    permutation of the list, and a run under the same schedule from the
    same state returns the same list. *)
Theorem compileErrors_concatenates_in_range_order
    sched fuel pkg (st : St) ps st' :
  IllTyped (heap pkg) = true -> Errors (heap pkg) = [] ->
  compileErrors heap sched (S fuel) pkg st = Some (ps, st') ->
  (exists rs,
      Forall2 (fun imp r => synthesizes sched fuel imp.2 r)
        (order sched (ranges st) PkgId (map_to_list (Imports (heap pkg)))) rs
      /\ ps = concat rs)
  /\ (forall sched2 fuel2 (st2 : St) ps2 st2',
         compileErrors heap sched2 fuel2 pkg st2 = Some (ps2, st2') ->
         Permutation ps ps2)
  /\ (forall fuel2 r2,
         compileErrors heap sched fuel2 pkg st = Some r2 -> r2 = (ps, st')).
Proof.
  intros Hill Herr Hrun. split; [|split].
  - rewrite compileErrors_S, Hill, Herr in Hrun. simpl in Hrun.
    unfold mbind at 1, M_bind, range_map in Hrun.
    apply import_loop in Hrun as (rs & Hrs & ->). by exists rs.
  - intros sched2 fuel2 st2 ps2 st2' H2. by eapply compileErrors_perm.
  - intros fuel2 r2 H2.
    apply (compileErrors_fuel_le _ _ (S fuel `max` fuel2)) in Hrun; [|lia].
    apply (compileErrors_fuel_le _ _ (S fuel `max` fuel2)) in H2; [|lia].
    congruence.
Qed.

(** *** Lint *)

Lemma partition_loop sched fuel acc pkgs (st : St) problems working st' :
  foldM (partition_step heap sched fuel) acc pkgs st
    = Some ((problems, working), st') ->
  exists rs,
    Forall2 (synthesizes sched fuel) (ill_typed pkgs) rs
    /\ problems = acc.1 ++ concat rs
    /\ working = acc.2 ++ well_typed pkgs
    /\ only_stderr st st'.
Proof.
  revert acc st. induction pkgs as [|pkg pkgs IH]; intros [a1 a2] st; simpl.
  - unfold mret, M_ret. intros [= <- <- <-]. exists [].
    rewrite !app_nil_r.
    repeat split; [constructor|apply only_stderr_refl].
  - unfold mbind, M_bind at 1. unfold partition_step at 1.
    destruct (IllTyped (heap pkg)) eqn:Hill; simpl.
    + unfold mbind, M_bind at 1.
      destruct (compileErrors heap sched fuel pkg st) as [[ps st1]|] eqn:E;
        [|done].
      unfold mret, M_ret at 1. intros H.
      apply IH in H as (rs & Hrs & -> & -> & Hev). simpl.
      exists (ps :: rs). repeat split.
      * constructor; [by exists st, st1|done].
      * simpl. by rewrite app_assoc.
      * eapply only_stderr_trans; [|done].
        by eapply compileErrors_only_stderr.
    + intros H.
      apply IH in H as (rs & Hrs & -> & -> & Hev). simpl.
      exists rs. repeat split; [done|by rewrite <- app_assoc|done].
Qed.

Lemma partition_loop_returns sched rank fuel acc pkgs (st : St) :
  ranked rank -> Forall (fun pkg => (rank pkg < fuel)%nat) pkgs ->
  exists r, foldM (partition_step heap sched fuel) acc pkgs st = Some r.
Proof.
  intros Hrank Hfuel. apply foldM_total. intros b pkg st0 Hin.
  rewrite Forall_forall in Hfuel. unfold partition_step.
  destruct (IllTyped (heap pkg)); [|by eexists].
  unfold mbind, M_bind.
  destruct (compileErrors_returns sched rank fuel pkg st0 Hrank)
    as [[ps st1] ->]; [by apply Hfuel|].
  by eexists.
Qed.

(** The loop over the checkers hands the same packages to every checker,
    in the order of [cs], and appends what each returns. *)
Lemma checker_loop o ign working acc cs (st : St) :
  foldM (fun problems c =>
           ps ← runner_lint Linter_Lint
                  {| checker := c; tags := Tags o; ignores := ign;
                     version := GoVersion o;
                     returnIgnored := ReturnIgnored o |} working;
           mret (problems ++ ps)) acc cs st
  = Some (acc ++ flat_map (fun c => Linter_Lint (linter_of o ign c) working) cs,
          {| ranges := ranges st;
             trace := trace st
                      ++ map (fun c => EvLint (linter_of o ign c) working) cs |}).
Proof.
  revert acc st. induction cs as [|c cs IH]; intros acc st; simpl.
  - unfold mret, M_ret. rewrite !app_nil_r. by destruct st.
  - unfold mbind at 1, M_bind at 1.
    unfold runner_lint, mbind, M_bind, mret, M_ret, emit. simpl.
    fold (linter_of o ign c).
    unfold mbind, M_bind, mret, M_ret in IH. rewrite IH. simpl.
    by rewrite <- !app_assoc.
Qed.

Lemma Lint_run sched fuel cs paths o ign pkgs (st : St) out err st' :
  parseIgnore (Ignores o) = (ign, None) ->
  packages_Load (LintTests o) paths = (pkgs, None) ->
  Lint heap packages_Load sort_Slice sched Linter_Lint fuel cs paths (Some o) st
    = Some ((out, err), st') ->
  err = None /\ Lint_outcome sched fuel cs paths o ign pkgs st out st'.
Proof.
  intros Hparse Hload. unfold Lint. rewrite Hparse.
  unfold mbind at 1, M_bind at 1, emit. rewrite Hload.
  unfold mbind at 1, M_bind at 1.
  destruct (foldM (partition_step heap sched fuel) ([], []) pkgs _)
    as [[[problems working] st1]|] eqn:E; [|done].
  apply partition_loop in E as (rs & Hrs & -> & -> & evs & Hext & Hevs).
  unfold extends in Hext. simpl in Hext. simpl.
  unfold Lint_outcome.
  destruct (well_typed pkgs) as [|w ws] eqn:Hw; simpl.
  - intros [= <- <- <-]. split; [done|]. exists rs, evs.
    repeat split; try done. by rewrite Hext, <- app_assoc.
  - unfold mbind at 1, M_bind at 1. rewrite checker_loop. simpl.
    intros [= <- <- <-]. split; [done|]. exists rs, evs.
    repeat split; try done.
    + unfold raw_problems. by rewrite Hw.
    + simpl. by rewrite Hext, <- !app_assoc.
Qed.

Lemma Lint_returns sched rank fuel cs paths o ign pkgs (st : St) :
  parseIgnore (Ignores o) = (ign, None) ->
  packages_Load (LintTests o) paths = (pkgs, None) ->
  ranked rank -> Forall (fun pkg => (rank pkg < fuel)%nat) pkgs ->
  exists out st',
    Lint heap packages_Load sort_Slice sched Linter_Lint fuel cs paths (Some o) st
      = Some ((out, None), st').
Proof.
  intros Hparse Hload Hrank Hfuel.
  destruct (partition_loop_returns sched rank fuel ([], []) pkgs
              {| ranges := ranges st;
                 trace := trace st ++ [EvLoad (LintTests o) paths] |}
              Hrank Hfuel) as [[[problems working] st1] E].
  unfold Lint. rewrite Hparse.
  unfold mbind at 1, M_bind at 1, emit. rewrite Hload.
  unfold mbind at 1, M_bind at 1. rewrite E.
  destruct (length working =? 0)%nat; [by eexists _, _|].
  unfold mbind at 1, M_bind at 1. rewrite checker_loop. by eexists _, _.
Qed.

Lemma stderr_not_EvLint (evs : list Event) :
  Forall (fun e => is_EvStderr e = true) evs ->
  List.filter is_EvLint evs = [].
Proof.
  induction 1 as [|e evs He _ IH]; simpl; [done|].
  destruct e; simpl in *; done.
Qed.

Lemma well_typed_nil pkgs :
  well_typed pkgs = [] <-> Forall (fun pkg => IllTyped (heap pkg) = true) pkgs.
Proof.
  unfold well_typed. induction pkgs as [|pkg pkgs IH]; simpl.
  - split; [constructor|done].
  - destruct (IllTyped (heap pkg)) eqn:E; simpl.
    + rewrite IH. split; [by constructor|by inversion 1].
    + split; [done|]. inversion 1. congruence.
Qed.

Lemma ill_typed_all pkgs :
  Forall (fun pkg => IllTyped (heap pkg) = true) pkgs -> ill_typed pkgs = pkgs.
Proof.
  unfold ill_typed. induction 1 as [|pkg pkgs H _ IH]; simpl; [done|].
  by rewrite H, IH.
Qed.

(** C5. Once the ignore text is parsed and the loader has returned [pkgs]:
    a run that returns, returns no error and a list built from [rs], the
    lists synthesized from the ill-typed packages in load order, having
    written only [evs] to stderr after the load. If every loaded package is
    ill-typed, the list is the concatenation of [rs] as it stands and no
    checker is run. Otherwise every checker of [cs] is run once, in order,
    on the well-typed packages and nothing else, and the list is made from
    [rs] and what the checkers return. The run does return when the imports
    followed descend along a rank below [fuel]. *)
Theorem Lint_splits_packages
    sched fuel cs paths o ign pkgs (st : St) :
  parseIgnore (Ignores o) = (ign, None) ->
  packages_Load (LintTests o) paths = (pkgs, None) ->
  (forall out err st',
      Lint heap packages_Load sort_Slice sched Linter_Lint fuel cs paths (Some o) st
        = Some ((out, err), st') ->
      err = None
      /\ exists rs evs,
          Forall2 (synthesizes sched fuel) (ill_typed pkgs) rs
          /\ Forall (fun e => is_EvStderr e = true) evs
          /\ (Forall (fun pkg => IllTyped (heap pkg) = true) pkgs ->
              ill_typed pkgs = pkgs
              /\ out = concat rs
              /\ trace st' = trace st ++ EvLoad (LintTests o) paths :: evs
              /\ List.filter is_EvLint (EvLoad (LintTests o) paths :: evs) = [])
          /\ (Exists (fun pkg => IllTyped (heap pkg) = false) pkgs ->
              out = dedup (sort_Slice Problem less
                             (concat rs
                              ++ flat_map
                                   (fun c => Linter_Lint (linter_of o ign c)
                                                         (well_typed pkgs))
                                   cs))
              /\ trace st' =
                   trace st ++ EvLoad (LintTests o) paths :: evs
                   ++ map (fun c => EvLint (linter_of o ign c)
                                           (well_typed pkgs)) cs))
  /\ (forall pkg, In pkg (well_typed pkgs)
                 <-> In pkg pkgs /\ IllTyped (heap pkg) = false)
  /\ (forall rank,
         ranked rank -> Forall (fun pkg => (rank pkg < fuel)%nat) pkgs ->
         exists out st',
           Lint heap packages_Load sort_Slice sched Linter_Lint fuel cs paths
                (Some o) st = Some ((out, None), st')).
Proof.
  intros Hparse Hload. split; [|split].
  - intros out err st' Hrun.
    destruct (Lint_run _ _ _ _ _ _ _ _ _ _ _ Hparse Hload Hrun)
      as (-> & rs & evs & Hrs & Hevs & Hout).
    split; [done|]. exists rs, evs. split; [done|]. split; [done|]. split.
    + intros Hall. apply well_typed_nil in Hall as Hw. rewrite Hw in Hout.
      destruct Hout as [-> ->].
      repeat split; [by apply ill_typed_all|].
      simpl. by apply stderr_not_EvLint.
    + intros Hex. destruct (well_typed pkgs) as [|w ws] eqn:Hw.
      { apply well_typed_nil in Hw.
        apply Exists_exists in Hex as (pkg & Hin & Hp).
        rewrite Forall_forall in Hw. specialize (Hw _ Hin). congruence. }
      destruct Hout as [-> ->]. unfold raw_problems. by rewrite Hw.
  - intros pkg. unfold well_typed. rewrite filter_In, negb_true_iff. done.
  - intros rank Hrank Hfuel. by eapply Lint_returns.
Qed.

(** C2, as amended. Let the function that stands for [sort.Slice] meet its
    contract. On the path that runs the checkers (some loaded package is
    well-typed), a run that returns, returns a list in which no problem has
    both the position, offset included, and the message of the one before
    it. The list is obtained from the sorted slice, a rearrangement
    of the problems gathered that is ordered by (filename, line, column,
    message), by cutting it into runs of problems with one position and
    message and keeping the first of each run; checker and check are not
    compared. The run does return when the imports followed descend along
    a rank below [fuel]. *)
Theorem Lint_collapses_adjacent_identical
    sched fuel cs paths o ign pkgs (st : St) :
  sorts sort_Slice ->
  parseIgnore (Ignores o) = (ign, None) ->
  packages_Load (LintTests o) paths = (pkgs, None) ->
  Exists (fun pkg => IllTyped (heap pkg) = false) pkgs ->
  (forall out err st',
      Lint heap packages_Load sort_Slice sched Linter_Lint fuel cs paths (Some o) st
        = Some ((out, err), st') ->
      (forall i a b,
          out !! i = Some a -> out !! S i = Some b -> ~ identical a b)
      /\ exists rs sorted runs,
          Forall2 (synthesizes sched fuel) (ill_typed pkgs) rs
          /\ Permutation sorted (raw_problems o ign cs pkgs rs)
          /\ sorted_by_key sorted
          /\ sorted = flat_map run_of runs
          /\ Forall (fun r => Forall (fun d => identical r.1 d) r.2) runs
          /\ out = map fst runs)
  /\ (forall rank,
         ranked rank -> Forall (fun pkg => (rank pkg < fuel)%nat) pkgs ->
         exists out st',
           Lint heap packages_Load sort_Slice sched Linter_Lint fuel cs paths
                (Some o) st = Some ((out, None), st')).
Proof.
  intros Hsort Hparse Hload Hwell.
  split; [|intros rank ??; by eapply Lint_returns].
  intros out err st' Hrun.
  destruct (Lint_run _ _ _ _ _ _ _ _ _ _ _ Hparse Hload Hrun)
    as (-> & rs & evs & Hrs & Hevs & Hout).
  destruct (well_typed pkgs) as [|w ws] eqn:Hw.
  { apply well_typed_nil in Hw. apply Exists_exists in Hwell as (pkg & Hin & Hp).
    rewrite Forall_forall in Hw. specialize (Hw _ Hin). congruence. }
  destruct Hout as [-> _]. split.
  - intros i a b Ha Hb Hid. apply same_spec in Hid.
    pose proof (dedup_no_adjacent_same _ i a b Ha Hb). congruence.
  - destruct (dedup_runs (sort_Slice Problem less
                            (raw_problems o ign cs pkgs rs)))
      as (runs & Hcut & Hded & Hruns).
    exists rs, (sort_Slice Problem less (raw_problems o ign cs pkgs rs)),
      runs.
    repeat split; try done.
    + apply (sort_perm _ Hsort).
    + intros i j d1 d2 Hij Hi Hj. apply key_le_less.
      by eapply (StronglySorted_lookup _ _
                   (sort_sorted _ Hsort _ _ _ less_StrictWeakOrder) i j).
    + eapply Forall_impl; [exact Hruns|]. intros r Hr.
      eapply Forall_impl; [exact Hr|]. intros d Hd. by apply same_spec.
Qed.

(** X1. On the path that runs the checkers the list returned is ordered by
    (filename, line, column, message), whatever function stands for
    [sort.Slice], as long as it meets the contract. *)
Theorem Lint_sorted_when_checkers_run
    sched fuel cs paths o ign pkgs (st : St) out err st' :
  sorts sort_Slice ->
  parseIgnore (Ignores o) = (ign, None) ->
  packages_Load (LintTests o) paths = (pkgs, None) ->
  Exists (fun pkg => IllTyped (heap pkg) = false) pkgs ->
  Lint heap packages_Load sort_Slice sched Linter_Lint fuel cs paths (Some o) st
    = Some ((out, err), st') ->
  sorted_by_key out.
Proof.
  intros Hsort Hparse Hload Hwell Hrun.
  destruct (Lint_run _ _ _ _ _ _ _ _ _ _ _ Hparse Hload Hrun)
    as (-> & rs & evs & Hrs & Hevs & Hout).
  destruct (well_typed pkgs) as [|w ws] eqn:Hw.
  { apply well_typed_nil in Hw. apply Exists_exists in Hwell as (pkg & Hin & Hp).
    rewrite Forall_forall in Hw. specialize (Hw _ Hin). congruence. }
  destruct Hout as [-> _].
  intros i j d1 d2 Hij Hi Hj. apply key_le_less.
  eapply (StronglySorted_lookup _ _
            (StronglySorted_sublist _ _ _ (dedup_sublist _)
               (sort_sorted _ Hsort _ _ _ less_StrictWeakOrder)) i j);
    done.
Qed.

(** A nil [opt] stands for the zero options. *)
Lemma Lint_nil_options sched fuel cs paths :
  Lint heap packages_Load sort_Slice sched Linter_Lint fuel cs paths None
  = Lint heap packages_Load sort_Slice sched Linter_Lint fuel cs paths
         (Some zero_Options).
Proof. reflexivity. Qed.

(** A parse error is returned before anything else happens. *)
Lemma Lint_parse_error sched fuel cs paths o ign e (st : St) :
  parseIgnore (Ignores o) = (ign, Some e) ->
  Lint heap packages_Load sort_Slice sched Linter_Lint fuel cs paths (Some o) st
    = Some (([], Some e), st).
Proof. intros Hparse. unfold Lint. by rewrite Hparse. Qed.

(** *** The exit policy *)

Lemma tally_step_spec confs acc p (st : St) :
  tally_step confs acc p st
  = Some (if counts_as_error confs p then (acc.1 + 1, acc.2)
          else (acc.1, acc.2 + 1),
          {| ranges := ranges st; trace := trace st ++ [EvFormat p] |}).
Proof.
  unfold tally_step, counts_as_error, mbind, M_bind, mret, M_ret, emit.
  destruct (confs !! Checker p) as [conf|]; [|done].
  by destruct (ExitNonZero _ conf).
Qed.

Lemma tally_loop confs acc ps (st : St) :
  foldM (tally_step confs) acc ps st
  = Some ((acc.1 + errors_of confs ps, acc.2 + warnings_of confs ps),
          {| ranges := ranges st; trace := trace st ++ map EvFormat ps |}).
Proof.
  unfold errors_of, warnings_of.
  revert acc st. induction ps as [|p ps IH]; intros [e w] st; simpl.
  - unfold mret, M_ret. rewrite !Z.add_0_r, app_nil_r. by destruct st.
  - unfold mbind at 1, M_bind at 1. rewrite tally_step_spec, IH. simpl.
    rewrite <- app_assoc. simpl.
    destruct (counts_as_error confs p); simpl; do 3 f_equal; lia.
Qed.

Lemma errors_warnings_total confs ps :
  errors_of confs ps + warnings_of confs ps = Z.of_nat (length ps).
Proof.
  unfold errors_of, warnings_of. induction ps as [|p ps IH]; simpl; [done|].
  destruct (counts_as_error confs p); simpl; lia.
Qed.

Lemma errors_of_pos confs ps :
  0 < errors_of confs ps <->
  exists p, In p ps /\ counts_as_error confs p = true.
Proof.
  unfold errors_of. induction ps as [|p ps IH]; simpl.
  - split; [lia|]. by intros (p & [] & _).
  - destruct (counts_as_error confs p) eqn:E; simpl.
    + split; [|lia]. intros _. exists p. by split; [left|].
    + rewrite IH. split.
      * intros (q & Hq & Hc). exists q. by split; [right|].
      * intros (q & [->|Hq] & Hc); [congruence|]. by exists q.
Qed.

(** C6. A problem counts as an error iff its checker is not in the map or
    is registered with [ExitNonZero]; every other problem counts as a
    warning. [report] formats every problem, hands the three counts to a
    formatter that takes statistics, and exits with status 1 iff there is
    an error; otherwise it returns, however many warnings there are. *)
Theorem report_exit_status Statter confs f ps (st : St) :
  (forall p,
      counts_as_error confs p = true <->
      confs !! Checker p = None
      \/ exists conf, confs !! Checker p = Some conf
                      /\ ExitNonZero _ conf = true)
  /\ errors_of confs ps + warnings_of confs ps = Z.of_nat (length ps)
  /\ exists outcome st',
      report Statter confs f ps st = Some (outcome, st')
      /\ trace st' =
           trace st ++ map EvFormat ps
           ++ (if Statter f
               then [EvStats (Z.of_nat (length ps)) (errors_of confs ps)
                             (warnings_of confs ps)]
               else [])
      /\ (outcome = Exit 1 <-> 0 < errors_of confs ps)
      /\ (outcome = Return <-> errors_of confs ps = 0)
      /\ (outcome = Exit 1 <->
          exists p, In p ps /\ counts_as_error confs p = true)
      /\ (Forall (fun p => exists conf, confs !! Checker p = Some conf
                                        /\ ExitNonZero _ conf = false) ps ->
          outcome = Return).
Proof.
  split; [|split].
  - intros p. unfold counts_as_error.
    destruct (confs !! Checker p) as [conf|]; [|naive_solver].
    split; [intros H; right; by exists conf|].
    intros [?|(conf' & [= <-] & H)]; done.
  - apply errors_warnings_total.
  - unfold report. unfold mbind at 1, M_bind at 1. rewrite tally_loop. simpl.
    rewrite !Z.add_0_l. unfold mbind at 1, M_bind at 1.
    assert (exists st' : St,
               (if Statter f
                then emit (EvStats (Z.of_nat (length ps)) (errors_of confs ps)
                                   (warnings_of confs ps))
                else mret ())
                 {| ranges := ranges st; trace := trace st ++ map EvFormat ps |}
               = Some ((), st')
               /\ trace st' =
                    trace st ++ map EvFormat ps
                    ++ (if Statter f
                        then [EvStats (Z.of_nat (length ps))
                                      (errors_of confs ps)
                                      (warnings_of confs ps)]
                        else [])) as (st1 & -> & Htrace).
    { destruct (Statter f); unfold emit, mret, M_ret; simpl.
      - eexists. split; [done|]. simpl. by rewrite <- app_assoc.
      - eexists. split; [done|]. simpl. by rewrite !app_nil_r. }
    destruct (Z.gtb_spec (errors_of confs ps) 0) as [Hpos|Hz].
    + exists (Exit 1), st1. rewrite <- errors_of_pos.
      repeat split; try done; try lia.
      intros Hsoft. apply errors_of_pos in Hpos as (p & Hin & Hc).
      rewrite Forall_forall in Hsoft.
      destruct (Hsoft p) as (conf & Hl & Hx); [by apply list_elem_of_In|].
      unfold counts_as_error in Hc. rewrite Hl in Hc. congruence.
    + assert (0 <= errors_of confs ps) as Hnn by (unfold errors_of; lia).
      exists Return, st1. rewrite <- errors_of_pos.
      repeat split; try done; try lia.
Qed.

(** Past the version flag, a successful [Lint] and the choice of the
    formatter, [ProcessFlagSet] is [report] on what [Lint] returned. *)
Lemma ProcessFlagSet_reports sched Statter fuel confs fs (st : St) ps st2 f :
  flag_version fs = false ->
  Lint heap packages_Load sort_Slice sched Linter_Lint fuel
       (map (fun e : string * CheckerConfig CheckerT => CC_Checker _ e.2)
            (order sched (ranges st) _ (map_to_list confs)))
       (flag_args fs)
       (Some {| Tags := strings_Fields (flag_tags fs);
                LintTests := flag_tests fs;
                Ignores := flag_ignore fs;
                GoVersion := flag_go fs;
                ReturnIgnored := flag_show_ignored fs |})
       {| ranges := S (ranges st); trace := trace st |}
  = Some ((ps, None), st2) ->
  formatter_of (flag_f fs) = Some f ->
  ProcessFlagSet heap packages_Load sort_Slice sched Linter_Lint Statter
                 fuel confs fs st
  = report Statter confs f ps st2.
Proof.
  intros Hv Hlint Hf. unfold ProcessFlagSet. rewrite Hv.
  unfold mbind at 1, M_bind at 1, range_map.
  unfold mbind at 1, M_bind at 1. rewrite Hlint.
  unfold formatter_of in Hf.
  destruct (String.eqb (flag_f fs) "text"); [by injection Hf as <-|].
  destruct (String.eqb (flag_f fs) "stylish"); [by injection Hf as <-|].
  destruct (String.eqb (flag_f fs) "json"); [by injection Hf as <-|done].
Qed.

(** ** What compileErrors reports *)

Lemma Forall2_elem_of_l {A B} (R : A -> B -> Prop) l k x :
  Forall2 R l k -> x ∈ l -> exists y, y ∈ k /\ R x y.
Proof.
  induction 1 as [|a b l k Hab _ IH]; intros Hx.
  - by apply elem_of_nil in Hx.
  - apply elem_of_cons in Hx as [->|Hx].
    + exists b. split; [by left|done].
    + destruct (IH Hx) as (y & Hy & HR). exists y. split; [by right|done].
Qed.

Lemma range_order_lookup sched n (m : gmap string PkgId) (imp : string * PkgId) :
  imp ∈ order sched n PkgId (map_to_list m) <-> m !! imp.1 = Some imp.2.
Proof. by rewrite (order_perm sched n), elem_of_map_to_list'. Qed.

Lemma compileErrors_well_typed sched fuel pkg (st : St) :
  IllTyped (heap pkg) = false ->
  compileErrors heap sched (S fuel) pkg st = Some ([], st).
Proof. intros Hill. by rewrite compileErrors_S, Hill. Qed.

Lemma compileErrors_own_errors sched fuel pkg (st : St) :
  IllTyped (heap pkg) = true -> Errors (heap pkg) <> [] ->
  compileErrors heap sched (S fuel) pkg st
  = Some (map problem_of (Errors (heap pkg)),
          {| ranges := ranges st;
             trace := trace st ++ flat_map stderr_of (Errors (heap pkg)) |}).
Proof.
  intros Hill Hne. rewrite compileErrors_S, Hill. cbn [negb].
  destruct (Errors (heap pkg)) as [|e errs] eqn:E; [done|].
  cbn [length Nat.eqb]. by rewrite explicit_errors_loop.
Qed.

Lemma compileErrors_imports sched fuel pkg (st : St) ps st' :
  IllTyped (heap pkg) = true -> Errors (heap pkg) = [] ->
  compileErrors heap sched (S fuel) pkg st = Some (ps, st') ->
  exists rs,
    Forall2 (fun imp r => synthesizes sched fuel imp.2 r)
      (order sched (ranges st) PkgId (map_to_list (Imports (heap pkg)))) rs
    /\ ps = concat rs.
Proof.
  intros Hill Herr. rewrite compileErrors_S, Hill, Herr.
  cbn [negb length Nat.eqb]. unfold mbind at 1, M_bind, range_map. intros H.
  apply import_loop in H as (rs & Hrs & ->). by exists rs.
Qed.

Lemma compileErrors_sound sched fuel pkg (st : St) ps st' p :
  compileErrors heap sched fuel pkg st = Some (ps, st') ->
  In p ps ->
  exists pkg' e, follows pkg pkg' /\ IllTyped (heap pkg') = true
                 /\ In e (Errors (heap pkg')) /\ p = problem_of e.
Proof.
  revert pkg st ps st'.
  induction fuel as [|fuel IH]; intros pkg st ps st'; [done|].
  destruct (IllTyped (heap pkg)) eqn:Hill;
    [|rewrite compileErrors_well_typed by done; by intros [= <- <-] []].
  destruct (decide (Errors (heap pkg) = [])) as [Herr|Herr].
  - intros H Hp.
    apply compileErrors_imports in H as (rs & Hrs & ->); [|done..].
    apply in_concat in Hp as (r & Hr & Hp). apply list_elem_of_In in Hr.
    apply Forall2_flip in Hrs.
    destruct (Forall2_elem_of_l _ _ _ _ Hrs Hr)
      as (imp & Himp & st1 & st2 & Hsub).
    apply range_order_lookup in Himp.
    destruct (IH _ _ _ _ Hsub Hp) as (pkg' & e & Hf & Hrest).
    exists pkg', e. split; [|done]. by eapply follows_import.
  - rewrite compileErrors_own_errors by done. intros [= <- <-] Hp.
    apply in_map_iff in Hp as (e & <- & He).
    exists pkg, e. repeat split; [constructor|done..].
Qed.

Lemma compileErrors_complete sched fuel pkg (st : St) ps st' pkg' e :
  compileErrors heap sched fuel pkg st = Some (ps, st') ->
  follows pkg pkg' -> IllTyped (heap pkg') = true ->
  In e (Errors (heap pkg')) ->
  In (problem_of e) ps.
Proof.
  intros Hrun Hf Hill He. revert fuel st ps st' Hrun.
  induction Hf as [pkg|pkg path imp pkg' Hill' Herr Himp Hf IH];
    intros fuel st ps st'; (destruct fuel as [|fuel]; [done|]).
  - rewrite compileErrors_own_errors; [|done|by destruct (Errors (heap pkg))].
    intros [= <- <-]. by apply in_map.
  - intros H. apply compileErrors_imports in H as (rs & Hrs & ->); [|done..].
    assert ((path, imp) ∈ order sched (ranges st) PkgId
                             (map_to_list (Imports (heap pkg)))) as Hin
        by (by apply range_order_lookup).
    destruct (Forall2_elem_of_l _ _ _ _ Hrs Hin)
      as (r & Hr & st1 & st2 & Hsub).
    apply in_concat. exists r. split; [by apply list_elem_of_In|].
    by eapply IH.
Qed.

(** X10. What [compileErrors] returns for a package is made of the errors
    of the packages it gets to, and of all of them: the package itself, and
    the imports of the ill-typed packages without errors of their own that it
    went through. Every problem it returns stands for an error of such an
    ill-typed package, and every error of such a package has its problem in
    the list. Each problem is tagged compiler/compile, or is the zero
    problem of an error that is not a type error. *)
Theorem compileErrors_reports_followed_errors
    sched fuel pkg (st : St) ps st' :
  compileErrors heap sched fuel pkg st = Some (ps, st') ->
  (forall p, In p ps <->
             exists pkg' e, follows pkg pkg' /\ IllTyped (heap pkg') = true
                            /\ In e (Errors (heap pkg')) /\ p = problem_of e)
  /\ Forall (fun p => p = zero_Problem
                      \/ (Checker p = "compiler" /\ Check p = "compile")) ps.
Proof.
  intros Hrun. split; [split|].
  - by eapply compileErrors_sound.
  - intros (pkg' & e & Hf & Hill & He & ->). by eapply compileErrors_complete.
  - apply Forall_forall. intros p Hp. apply list_elem_of_In in Hp.
    destruct (compileErrors_sound _ _ _ _ _ _ _ Hrun Hp)
      as (pkg' & e & _ & _ & _ & ->).
    destruct e; [right|left]; done.
Qed.

(** ** What Lint returns, seen from its caller *)

Lemma Lint_checker_path sched fuel cs paths o ign pkgs (st : St) out err st' :
  parseIgnore (Ignores o) = (ign, None) ->
  packages_Load (LintTests o) paths = (pkgs, None) ->
  Exists (fun pkg => IllTyped (heap pkg) = false) pkgs ->
  Lint heap packages_Load sort_Slice sched Linter_Lint fuel cs paths (Some o) st
    = Some ((out, err), st') ->
  exists rs,
    Forall2 (synthesizes sched fuel) (ill_typed pkgs) rs
    /\ out = dedup (sort_Slice Problem less (raw_problems o ign cs pkgs rs)).
Proof.
  intros Hparse Hload Hwell Hrun.
  destruct (Lint_run _ _ _ _ _ _ _ _ _ _ _ Hparse Hload Hrun)
    as (-> & rs & evs & Hrs & Hevs & Hout).
  destruct (well_typed pkgs) as [|w ws] eqn:Hw.
  { apply well_typed_nil in Hw. apply Exists_exists in Hwell as (pkg & Hin & Hp).
    rewrite Forall_forall in Hw. specialize (Hw _ Hin). congruence. }
  destruct Hout as [-> _]. by exists rs.
Qed.

(** X11. On the path that runs the checkers, what [Lint] returns and what
    was gathered differ by duplicates only: every problem returned was
    synthesized from an ill-typed package or reported by a checker, and
    every problem synthesized or reported is returned, itself or a problem
    with the same position and the same message. *)
Theorem Lint_loses_only_duplicates
    sched fuel cs paths o ign pkgs (st : St) out err st' :
  sorts sort_Slice ->
  parseIgnore (Ignores o) = (ign, None) ->
  packages_Load (LintTests o) paths = (pkgs, None) ->
  Exists (fun pkg => IllTyped (heap pkg) = false) pkgs ->
  Lint heap packages_Load sort_Slice sched Linter_Lint fuel cs paths (Some o) st
    = Some ((out, err), st') ->
  exists rs,
    Forall2 (synthesizes sched fuel) (ill_typed pkgs) rs
    /\ (forall p, In p out -> In p (raw_problems o ign cs pkgs rs))
    /\ (forall p, In p (raw_problems o ign cs pkgs rs) ->
                  exists q, In q out /\ identical q p).
Proof.
  intros Hsort Hparse Hload Hwell Hrun.
  destruct (Lint_checker_path _ _ _ _ _ _ _ _ _ _ _ Hparse Hload Hwell Hrun)
    as (rs & Hrs & ->).
  exists rs. split; [done|].
  set (raw := raw_problems o ign cs pkgs rs).
  pose proof (sort_perm _ Hsort Problem less raw) as Hperm.
  split.
  - intros p Hp. apply list_elem_of_In. rewrite <- Hperm.
    apply list_elem_of_In in Hp.
    by apply (sublist_subseteq _ _ (dedup_sublist _)).
  - intros p Hp. apply list_elem_of_In in Hp. rewrite <- Hperm in Hp.
    destruct (dedup_runs (sort_Slice Problem less raw))
      as (runs & Hflat & -> & Hruns).
    rewrite Hflat in Hp. apply list_elem_of_In, in_flat_map in Hp
      as (r & Hr & Hp).
    exists r.1. split; [by apply in_map|].
    destruct Hp as [<-|Hp]; [done|].
    rewrite Forall_forall in Hruns. specialize (Hruns r).
    apply same_spec. unfold is_run in Hruns. rewrite Forall_forall in Hruns.
    apply Hruns; by apply list_elem_of_In.
Qed.

(** X12. When problems that share filename, line and column share the
    offset as well, the list returned on the path that runs the checkers is
    strictly increasing in (filename, line, column, message): no two of its
    problems, adjacent or not, have the same position and message. *)
Theorem Lint_strictly_sorted_when_offsets_agree
    sched fuel cs paths o ign pkgs (st : St) out err st' :
  sorts sort_Slice ->
  parseIgnore (Ignores o) = (ign, None) ->
  packages_Load (LintTests o) paths = (pkgs, None) ->
  Exists (fun pkg => IllTyped (heap pkg) = false) pkgs ->
  Lint heap packages_Load sort_Slice sched Linter_Lint fuel cs paths (Some o) st
    = Some ((out, err), st') ->
  offsets_agree out ->
  forall i j d1 d2,
    (i < j)%nat -> out !! i = Some d1 -> out !! j = Some d2 ->
    key_le d1 d2 /\ key d1 <> key d2 /\ ~ identical d1 d2.
Proof.
  intros Hsort Hparse Hload Hwell Hrun Hoff.
  destruct (Lint_checker_path _ _ _ _ _ _ _ _ _ _ _ Hparse Hload Hwell Hrun)
    as (rs & Hrs & ->).
  set (raw := raw_problems o ign cs pkgs rs) in *.
  assert (sorted_by_key (dedup (sort_Slice Problem less raw))) as Hsorted.
  { intros i j d1 d2 Hij Hi Hj. apply key_le_less.
    eapply (StronglySorted_lookup _ _
              (StronglySorted_sublist _ _ _ (dedup_sublist _)
                 (sort_sorted _ Hsort _ _ _ less_StrictWeakOrder)) i j);
      done. }
  intros i j d1 d2 Hij Hi Hj.
  pose proof (sorted_no_adjacent_strict _ Hsorted (dedup_no_adjacent_same _)
                Hoff i j d1 d2 Hij Hi Hj) as Hne.
  split; [by apply (Hsorted i j)|]. split; [done|].
  intros [Hpos Htext]. apply Hne. unfold key. by rewrite Hpos, Htext.
Qed.

(** X13. [Lint] returns an error in two cases only, and then returns no
    problem: when the ignore text does not parse, before anything is loaded;
    and when the loader fails, right after the load, before any package is
    looked at. In both cases it returns whatever the packages are. A run
    that gets past the loader returns no error: packages that do not
    type-check show up as problems, never as an error of [Lint]. *)
Theorem Lint_fails_only_on_parser_or_loader
    sched fuel cs paths o (st : St) :
  (forall e, (parseIgnore (Ignores o)).2 = Some e ->
             Lint heap packages_Load sort_Slice sched Linter_Lint fuel cs paths
                  (Some o) st = Some (([], Some e), st))
  /\ (forall e, (parseIgnore (Ignores o)).2 = None ->
                (packages_Load (LintTests o) paths).2 = Some e ->
                Lint heap packages_Load sort_Slice sched Linter_Lint fuel cs paths
                     (Some o) st
                = Some (([], Some e),
                        {| ranges := ranges st;
                           trace := trace st
                                    ++ [EvLoad (LintTests o) paths] |}))
  /\ (forall out e st',
         Lint heap packages_Load sort_Slice sched Linter_Lint fuel cs paths
              (Some o) st = Some ((out, Some e), st') ->
         out = []
         /\ ((parseIgnore (Ignores o)).2 = Some e
             \/ ((parseIgnore (Ignores o)).2 = None
                 /\ (packages_Load (LintTests o) paths).2 = Some e))).
Proof.
  destruct (parseIgnore (Ignores o)) as [ign [e0|]] eqn:Hparse.
  { pose proof (Lint_parse_error sched fuel cs paths o ign e0 st Hparse) as H.
    split; [|split]; [by intros e [= <-]|done|].
    intros out e st'. rewrite H. intros [= <- <- <-]. split; [done|by left]. }
  destruct (packages_Load (LintTests o) paths) as [pkgs [e1|]] eqn:Hload.
  - assert (Lint heap packages_Load sort_Slice sched Linter_Lint fuel cs paths
              (Some o) st
            = Some (([], Some e1),
                    {| ranges := ranges st;
                       trace := trace st ++ [EvLoad (LintTests o) paths] |}))
      as H.
    { unfold Lint. rewrite Hparse.
      unfold mbind at 1, M_bind at 1, emit. by rewrite Hload. }
    split; [|split]; [done|by intros e _ [= <-]|].
    intros out e st'. rewrite H. intros [= <- <- <-]. split; [done|by right].
  - split; [|split]; [done..|].
    intros out e st' Hrun.
    by destruct (Lint_run _ _ _ _ _ _ _ _ _ _ _ Hparse Hload Hrun) as [? _].
Qed.

(** The build tags do not reach the loader or the checkers: two flag
    sets that differ in the flag [tags] only give the same run, with the
    same problems, output and exit status. *)
Remark ProcessFlagSet_ignores_build_tags
    sched Statter fuel confs fs tags' (st : St) :
  ProcessFlagSet heap packages_Load sort_Slice sched Linter_Lint Statter
                 fuel confs fs st
  = ProcessFlagSet heap packages_Load sort_Slice sched Linter_Lint Statter
      fuel confs
      {| flag_tags := tags'; flag_ignore := flag_ignore fs;
         flag_tests := flag_tests fs; flag_go := flag_go fs;
         flag_f := flag_f fs; flag_version := flag_version fs;
         flag_show_ignored := flag_show_ignored fs;
         flag_args := flag_args fs |} st.
Proof. reflexivity. Qed.

(** ** The exit status of a whole run *)

Lemma report_run Statter confs f ps (st : St) :
  report Statter confs f ps st
  = Some (if errors_of confs ps >? 0 then Exit 1 else Return,
          {| ranges := ranges st;
             trace := trace st ++ map EvFormat ps
                      ++ (if Statter f
                          then [EvStats (Z.of_nat (length ps))
                                        (errors_of confs ps)
                                        (warnings_of confs ps)]
                          else []) |}).
Proof.
  unfold report. unfold mbind at 1, M_bind at 1. rewrite tally_loop. simpl.
  rewrite !Z.add_0_l. unfold mbind at 1, M_bind at 1.
  destruct (Statter f); unfold emit, mret, M_ret; simpl.
  - rewrite <- app_assoc. by destruct (errors_of confs ps >? 0).
  - rewrite !app_nil_r. by destruct (errors_of confs ps >? 0).
Qed.

(** X14. How a run ends. With the flag [version] it exits with status 0
    and nothing is loaded. Otherwise [Lint] runs on the registered checkers;
    if it returns an error the run prints it and exits with status 1,
    whatever the format flag says. If not, an unknown format is found out
    only now, after the checkers have run: the run exits with status 2 and
    prints no problem. With a known format every problem is printed, and the
    run exits with status 1 if one of them counts as an error and returns
    otherwise. *)
Theorem ProcessFlagSet_exit_status
    sched Statter fuel confs fs (st : St) outcome st' :
  ProcessFlagSet heap packages_Load sort_Slice sched Linter_Lint Statter
                 fuel confs fs st = Some (outcome, st') ->
  if flag_version fs then
    outcome = Exit 0 /\ trace st' = trace st ++ [EvVersion]
  else
    exists ps err st2,
      Lint heap packages_Load sort_Slice sched Linter_Lint fuel
           (map (fun e : string * CheckerConfig CheckerT => CC_Checker _ e.2)
                (order sched (ranges st) _ (map_to_list confs)))
           (flag_args fs)
           (Some {| Tags := strings_Fields (flag_tags fs);
                    LintTests := flag_tests fs;
                    Ignores := flag_ignore fs;
                    GoVersion := flag_go fs;
                    ReturnIgnored := flag_show_ignored fs |})
           {| ranges := S (ranges st); trace := trace st |}
      = Some ((ps, err), st2)
      /\ match err, formatter_of (flag_f fs) with
         | Some e, _ =>
             outcome = Exit 1
             /\ trace st' = trace st2 ++ [EvStderr (error_line e)]
         | None, None =>
             outcome = Exit 2
             /\ trace st' =
                  trace st2 ++ [EvStderr (unsupported_format (flag_f fs))]
         | None, Some f =>
             outcome = (if errors_of confs ps >? 0 then Exit 1 else Return)
             /\ trace st' =
                  trace st2 ++ map EvFormat ps
                  ++ (if Statter f
                      then [EvStats (Z.of_nat (length ps))
                                    (errors_of confs ps)
                                    (warnings_of confs ps)]
                      else [])
         end.
Proof.
  unfold ProcessFlagSet. destruct (flag_version fs).
  { unfold mbind at 1, M_bind at 1, emit. by intros [= <- <-]. }
  unfold mbind at 1, M_bind at 1, range_map.
  unfold mbind at 1, M_bind at 1.
  destruct (Lint _ _ _ _ _ _ _ _ _ _) as [[[ps err] st2]|] eqn:E; [|done].
  intros H. exists ps, err, st2. split; [done|].
  destruct err as [e|].
  { unfold mbind at 1, M_bind at 1, emit in H. by injection H as <- <-. }
  unfold formatter_of.
  destruct (String.eqb (flag_f fs) "text");
    [rewrite report_run in H; by injection H as <- <-|].
  destruct (String.eqb (flag_f fs) "stylish");
    [rewrite report_run in H; by injection H as <- <-|].
  destruct (String.eqb (flag_f fs) "json");
    [rewrite report_run in H; by injection H as <- <-|].
  unfold mbind at 1, M_bind at 1, emit in H. by injection H as <- <-.
Qed.

(** X15. When every registered checker is registered with [ExitNonZero],
    as the one checker of errcheck-ng and the one of gosimple are, every
    problem counts as an error, and the run exits with status 1 exactly when
    there is a problem to print, a problem synthesized from a package that
    does not compile included. *)
Theorem report_exits_on_any_problem Statter confs f ps (st : St) :
  (forall name conf, confs !! name = Some conf -> ExitNonZero _ conf = true) ->
  errors_of confs ps = Z.of_nat (length ps)
  /\ warnings_of confs ps = 0
  /\ exists st',
      report Statter confs f ps st
      = Some (match ps with [] => Return | _ :: _ => Exit 1 end, st').
Proof.
  intros Hhard.
  assert (forall p, counts_as_error confs p = true) as Hall.
  { intros p. unfold counts_as_error.
    destruct (confs !! Checker p) as [conf|] eqn:E; [by eapply Hhard|done]. }
  assert (errors_of confs ps = Z.of_nat (length ps)) as Herr.
  { unfold errors_of. f_equal. f_equal.
    induction ps as [|p ps IH]; [done|]. simpl. by rewrite Hall, IH. }
  pose proof (errors_warnings_total confs ps) as Htot.
  split; [done|]. split; [lia|].
  rewrite report_run, Herr. eexists.
  by destruct ps.
Qed.


End DriverFacts.

(** ** parseIgnore and Lint *)

(** C7. [parseIgnore] fails iff some field of the text, as [strings.Fields]
    cuts it, does not hold exactly one colon, and the error is then the
    malformed-ignore error; [Lint] returns that error with its state
    untouched: nothing was loaded and no checker was run. When every field
    holds exactly one colon, each field yields one rule, in order: the part
    before the colon is the pattern, the part after it split at the commas
    are the checks. *)
Theorem parseIgnore_fails_iff_malformed_token s :
  ((exists e, (parseIgnore s).2 = Some e) <->
   exists tok, In tok (strings_Fields s) /\ count_byte ":" tok <> 1%nat)
  /\ ((exists tok, In tok (strings_Fields s) /\ count_byte ":" tok <> 1%nat) ->
      parseIgnore s = ([], Some malformed))
  /\ ((forall tok, In tok (strings_Fields s) -> count_byte ":" tok = 1%nat) ->
      parseIgnore s = (map rule_of (strings_Fields s), None))
  /\ (forall CheckerT heap packages_Load sort_Slice sched Linter_Lint
             fuel cs paths o (st : St CheckerT),
         Ignores o = s ->
         (exists tok, In tok (strings_Fields s) /\ count_byte ":" tok <> 1%nat) ->
         Lint heap packages_Load sort_Slice sched Linter_Lint fuel cs paths
              (Some o) st
         = Some (([], Some malformed), st)).
Proof.
  assert ((exists tok, In tok (strings_Fields s)
                       /\ count_byte ":" tok <> 1%nat) ->
          parseIgnore s = ([], Some malformed)) as Hbad.
  { intros (tok & Hin & Htok). rewrite parseIgnore_Fields.
    apply parseIgnore_loop_malformed, Exists_exists.
    exists tok. split; [by apply list_elem_of_In|done]. }
  assert ((forall tok, In tok (strings_Fields s) ->
                       count_byte ":" tok = 1%nat) ->
          parseIgnore s = (map rule_of (strings_Fields s), None)) as Hgood.
  { intros Hall. rewrite parseIgnore_Fields.
    apply parseIgnore_loop_ok, Forall_forall.
    intros tok Hin. by apply Hall, list_elem_of_In. }
  repeat split; try done.
  - intros [e He].
    destruct (Forall_or_Exists_colons (strings_Fields s)) as [Hall|Hex].
    + rewrite Hgood in He; [done|].
      rewrite Forall_forall in Hall. intros tok Hin.
      by apply Hall, list_elem_of_In.
    + apply Exists_exists in Hex as (tok & Hin & Htok).
      exists tok. split; [by apply list_elem_of_In|done].
  - intros Hex. rewrite (Hbad Hex). by eexists.
  - intros CheckerT heap packages_Load sort_Slice sched Linter_Lint
           fuel cs paths o st <- Hex.
    by eapply Lint_parse_error, Hbad.
Qed.

(** ** The worked inputs *)

Lemma ranked_two_imports : ranked heap_two_imports rank_two_imports.
Proof.
  intros [|[|[|pkg]]] path imp; simpl; try done.
  intros _ _ H.
  apply lookup_insert_Some in H as [[_ <-]|[_ H]]; [simpl; lia|].
  apply lookup_singleton_Some in H as [_ <-]. simpl. lia.
Qed.

(** *** Termination (C3) *)

Lemma compileErrors_cycle_no_fuel sched fuel pkg (st : St unit) :
  (pkg < 2)%nat -> compileErrors heap_cycle sched fuel pkg st = None.
Proof.
  revert pkg st. induction fuel as [|fuel IH]; intros pkg st Hpkg; [done|].
  rewrite compileErrors_S.
  destruct pkg as [|[|pkg]]; [| |lia]; simpl;
    unfold mbind at 1, M_bind at 1, range_map; rewrite map_to_list_singleton;
    match goal with
    | |- context [order sched ?n ?V ?l] =>
        pose proof (order_perm sched n V l) as Hp;
        apply Permutation_sym, Permutation_length_1_inv in Hp; rewrite Hp
    end;
    simpl; unfold mbind, M_bind; simpl; by rewrite IH by lia.
Qed.

(** C3, counterexample. On two ill-typed packages without errors that import
    each other, no amount of fuel makes [compileErrors] return, under any
    schedule and from any state: the recursion does not end. *)
Lemma compileErrors_diverges_on_cycle :
  ~ exists (sched : Sched) (fuel : nat) (st : St unit) r,
      compileErrors heap_cycle sched fuel 0%nat st = Some r.
Proof.
  intros (sched & fuel & st & r & H).
  rewrite compileErrors_cycle_no_fuel in H; [done|lia].
Qed.

Lemma compileErrors_terminates_when_acyclic_witness :
  exists ps st',
    compileErrors heap_two_imports in_order 2 0%nat st0 = Some (ps, st').
Proof.
  apply (compileErrors_terminates_when_acyclic unit heap_two_imports in_order
           rank_two_imports 2 0%nat st0).
  - exact ranked_two_imports.
  - simpl. lia.
Defined.

(** *** The order of the synthesized problems (C8) *)

(** C8, counterexample. Two runs on one graph that differ only in the order
    in which [range] walks the imports of package 0 return the problems in
    different orders. *)
Lemma compileErrors_order_follows_range :
  compileErrors heap_two_imports in_order 2 0%nat st0
  = Some ([problem_foo; problem_bar], {| ranges := 1; trace := [] |})
  /\ compileErrors heap_two_imports reversed 2 0%nat st0
     = Some ([problem_bar; problem_foo], {| ranges := 1; trace := [] |})
  /\ [problem_foo; problem_bar] <> [problem_bar; problem_foo].
Proof. repeat split; [vm_compute; reflexivity..|discriminate]. Qed.

Lemma compileErrors_concatenates_in_range_order_witness :
  (exists rs,
      Forall2 (fun imp r => synthesizes unit heap_two_imports reversed 1 imp.2 r)
        (order reversed (ranges st0) PkgId
           (map_to_list (Imports (heap_two_imports 0%nat)))) rs
      /\ [problem_bar; problem_foo] = concat rs)
  /\ (forall sched2 fuel2 (st2 : St unit) ps2 st2',
         compileErrors heap_two_imports sched2 fuel2 0%nat st2
           = Some (ps2, st2') ->
         Permutation [problem_bar; problem_foo] ps2)
  /\ (forall fuel2 r2,
         compileErrors heap_two_imports reversed fuel2 0%nat st0 = Some r2 ->
         r2 = ([problem_bar; problem_foo], {| ranges := 1; trace := [] |})).
Proof.
  apply (compileErrors_concatenates_in_range_order unit heap_two_imports
           reversed 1 0%nat st0).
  - reflexivity.
  - reflexivity.
  - vm_compute. reflexivity.
Defined.

(** *** Errors that are not type errors (C4) *)

(** C4, at the failing input. The error that is not a [types.Error] is
    reported on stderr and the loop goes on, but the round still appends its
    problem, which is the zero value: the list has an entry for it. *)
Lemma compileErrors_appends_zero_problem_for_unhandled_error sched :
  compileErrors heap_unhandled sched 1 0%nat st0
  = Some ([zero_Problem; problem_foo],
          {| ranges := 0;
             trace := [EvStderr (unhandled_error_type "scanner.ErrorList")] |}).
Proof. reflexivity. Qed.

(** *** Order and duplicates in the result of Lint (C1, C2) *)

(** C1, at the failing input. When no loaded package is well-typed, [Lint]
    returns the synthesized problems as they were gathered, without sorting
    them: here the problem on line 10 stands before the one on line 3. No
    sorter and no schedule is consulted on this path. *)
Lemma Lint_short_circuit_returns_unsorted sort_Slice sched (cs : list unit) :
  Lint heap_late_error load_pkg0 sort_Slice sched no_problems 1 cs ["./..."] None
       st0
  = Some (([problem_of undefined_x; problem_of unused_import], None),
          {| ranges := 0; trace := [EvLoad false ["./..."]] |})
  /\ ~ key_le (problem_of undefined_x) (problem_of unused_import)
  /\ ~ sorted_by_key [problem_of undefined_x; problem_of unused_import].
Proof.
  assert (~ key_le (problem_of undefined_x) (problem_of unused_import)) as Hnle.
  { intros H. apply key_le_less in H. vm_compute in H. discriminate. }
  split; [vm_compute; reflexivity|]. split; [done|].
  intros H. apply Hnle. apply (H 0%nat 1%nat); [lia|done|done].
Qed.

(** C2, counterexample. On the path that runs the checkers, two problems
    with the same filename, line, column and message stay next to each other
    in the result when their positions differ in the offset. (And when no
    package is well-typed nothing is collapsed at all: the one error of a
    package imported twice comes out twice.) *)
Lemma Lint_keeps_adjacent_problems_with_equal_keys :
  (exists st',
      Lint heap_all_well_typed load_pkg0 insertion_sort in_order two_offsets
           1 [()] ["./..."] None st0
      = Some (([unchecked_at 40; unchecked_at 95], None), st'))
  /\ Filename (Position (unchecked_at 40)) = Filename (Position (unchecked_at 95))
  /\ Line (Position (unchecked_at 40)) = Line (Position (unchecked_at 95))
  /\ Column (Position (unchecked_at 40)) = Column (Position (unchecked_at 95))
  /\ Text (unchecked_at 40) = Text (unchecked_at 95)
  /\ (exists st',
         Lint heap_shared_import load_pkgs01 insertion_sort in_order
              no_problems 2 [()] ["./..."] None st0
         = Some (([problem_foo; problem_foo], None), st')).
Proof.
  repeat split; try done; eexists; vm_compute; reflexivity.
Qed.

(** Scenario A: two checkers report the same message at the same position,
    and one problem remains, the one that came first in the sorted slice. *)
Example Lint_two_checkers_one_problem :
  Lint heap_all_well_typed load_pkg0 insertion_sort in_order unused_x
       1 ["unused"; "staticcheck"] ["./..."] None st0_named
  = Some (([{| Position := at_ "f.go" 87 10 3; Text := "unused variable x";
               Checker := "unused"; Check := "U1000" |}], None),
          {| ranges := 0;
             trace := [EvLoad false ["./..."];
                       EvLint (linter_of string zero_Options [] "unused")
                              [0%nat];
                       EvLint (linter_of string zero_Options [] "staticcheck")
                              [0%nat]] |}).
Proof. vm_compute. reflexivity. Qed.

Lemma ranked_all_well_typed rank : ranked heap_all_well_typed rank.
Proof. intros pkg path imp. simpl. done. Qed.

Lemma Lint_collapses_adjacent_identical_witness :
  exists out st',
    Lint heap_all_well_typed load_pkg0 insertion_sort in_order unused_x
         1 ["unused"; "staticcheck"] ["./..."] (Some zero_Options) st0_named
    = Some ((out, None), st')
    /\ forall i a b,
        out !! i = Some a -> out !! S i = Some b -> ~ identical a b.
Proof.
  destruct (Lint_collapses_adjacent_identical string heap_all_well_typed
              load_pkg0 insertion_sort unused_x in_order 1
              ["unused"; "staticcheck"] ["./..."] zero_Options [] [0%nat]
              st0_named insertion_sort_sorts eq_refl eq_refl
              (Exists_cons_hd _ 0%nat [] eq_refl)) as [Hprop Hret].
  destruct (Hret (fun _ => 0%nat) (ranked_all_well_typed _)
              ltac:(repeat constructor))
    as (out & st' & Hrun).
  exists out, st'. split; [exact Hrun|].
  exact (proj1 (Hprop out None st' Hrun)).
Defined.

Lemma Lint_sorted_when_checkers_run_witness :
  sorted_by_key [problem_of unused_import; problem_of undefined_x].
Proof.
  eapply (Lint_sorted_when_checkers_run unit heap_late_error load_pkgs01
            insertion_sort no_problems in_order 1 [()] ["./..."]
            zero_Options [] [0%nat; 1%nat] st0 _ None).
  - exact insertion_sort_sorts.
  - reflexivity.
  - reflexivity.
  - right. by left.
  - vm_compute. reflexivity.
Defined.

(** *** The split into ill-typed and well-typed packages (C5) *)

Lemma Lint_splits_packages_witness :
  exists out st' rs evs,
    Lint heap_two_imports load_pkgs01 insertion_sort in_order no_problems
         2 [()] ["./..."] (Some zero_Options) st0
    = Some ((out, None), st')
    /\ Forall2 (synthesizes unit heap_two_imports in_order 2)
               [0%nat; 1%nat] rs
    /\ out = concat rs
    /\ trace st' = EvLoad false ["./..."] :: evs
    /\ List.filter (is_EvLint unit) (EvLoad false ["./..."] :: evs) = [].
Proof.
  destruct (Lint_splits_packages unit heap_two_imports load_pkgs01
              insertion_sort no_problems in_order 2 [()] ["./..."]
              zero_Options [] [0%nat; 1%nat] st0 eq_refl eq_refl)
    as (Hprop & _ & Hret).
  destruct (Hret rank_two_imports ranked_two_imports
              ltac:(repeat constructor)) as (out & st' & Hrun).
  destruct (Hprop out None st' Hrun) as (_ & rs & evs & Hrs & _ & Hill & _).
  destruct (Hill ltac:(repeat constructor)) as (_ & Hout & Htrace & Hnone).
  exists out, st', rs, evs. repeat split; assumption.
Defined.

(** Scenario B: package 0 has no errors of its own and imports package 1,
    which fails with "undefined: foo"; the result is that one problem. *)
Example Lint_dependent_package :
  Lint heap_dependent load_pkg0 insertion_sort in_order no_problems
       2 [()] ["./..."] None st0
  = Some (([problem_foo], None),
          {| ranges := 1; trace := [EvLoad false ["./..."]] |}).
Proof. vm_compute. reflexivity. Qed.

(** Scenario D: the ignore text "badformat" holds no colon. *)
Example Lint_badformat :
  parseIgnore "badformat" = ([], Some malformed)
  /\ Lint heap_all_well_typed load_pkg0 insertion_sort in_order no_problems
          1 [()] ["./..."]
          (Some {| Tags := []; LintTests := true; Ignores := "badformat";
                   GoVersion := 11; ReturnIgnored := false |}) st0
     = Some (([], Some malformed), st0).
Proof. split; vm_compute; reflexivity. Qed.

Example parseIgnore_two_rules :
  parseIgnore "mypkg/*:unusedvar  os/exec/*_test.go:SA1000,SA1001"
  = ([{| Pattern := "mypkg/*"; Checks := ["unusedvar"] |};
      {| Pattern := "os/exec/*_test.go"; Checks := ["SA1000"; "SA1001"] |}],
     None).
Proof. reflexivity. Qed.

(** *** Version strings (C9, C10) *)

(** C9, counterexample. "1." followed by a decimal integer that does not fit
    an [int] is rejected. *)
Lemma versionFlag_Set_rejects_numeral_out_of_range :
  numeral "99999999999999999999"
  /\ versionFlag_Set "1.99999999999999999999" 11
     = (maxInt, Some (NumError "Atoi" "99999999999999999999" ErrRange)).
Proof. repeat split; done. Qed.

Example versionFlag_Set_examples :
  versionFlag_Set "1.11" 0 = (11, None)
  /\ versionFlag_Set "1.-5" 11 = (-5, None)
  /\ versionFlag_Set "1.+7" 11 = (7, None)
  /\ versionFlag_Set "2.0" 11 = (11, Some invalid_version)
  /\ versionFlag_Set "1." 11 = (11, Some invalid_version)
  /\ versionFlag_Set "1.x" 11 = (0, Some (NumError "Atoi" "x" ErrSyntax)).
Proof. repeat split; reflexivity. Qed.

(** C10, counterexample. After a range error the stored value is the bound
    of [int], not zero. *)
Lemma versionFlag_Set_stores_bound_on_range_error :
  versionFlag_Set "1.9223372036854775808" 11
  = (9223372036854775807,
     Some (NumError "Atoi" "9223372036854775808" ErrRange))
  /\ 9223372036854775807 <> 0.
Proof. split; done. Qed.

Lemma versionFlag_Set_overwrites_on_parse_error_witness :
  versionFlag_Set "1.x" 11 = (0, Some (NumError "Atoi" "x" ErrSyntax)).
Proof.
  exact (proj1 (versionFlag_Set_overwrites_on_parse_error "x" 11 0
                  (NumError "Atoi" "x" ErrSyntax)
                  ltac:(discriminate) eq_refl)).
Defined.

(** *** The exit status (C6) *)

(** The command errcheck-ng registers its checker with [ExitNonZero]; a
    problem it reports makes the run exit with status 1. Registered without
    the flag, the same problem is a warning and the run returns; not
    registered under its name at all, it is an error again. *)
Example ProcessFlagSet_hard_and_soft :
  fst <$> (ProcessFlagSet heap_all_well_typed load_pkg0 insertion_sort in_order
     errcheck_Lint never_stats 1
     {[ "errcheck" := {| CC_Checker := "errcheck"; ExitNonZero := true |} ]}
     flags_text st0_named) = Some (Exit 1)
  /\ fst <$> (ProcessFlagSet heap_all_well_typed load_pkg0 insertion_sort in_order
        errcheck_Lint never_stats 1
        {[ "errcheck" := {| CC_Checker := "errcheck"; ExitNonZero := false |} ]}
        flags_text st0_named) = Some Return
  /\ fst <$> (ProcessFlagSet heap_all_well_typed load_pkg0 insertion_sort in_order
        errcheck_Lint never_stats 1
        {[ "other" := {| CC_Checker := "errcheck"; ExitNonZero := false |} ]}
        flags_text st0_named) = Some (Exit 1).
Proof. repeat split; vm_compute; reflexivity. Qed.

(** ** Further worked inputs *)

(** *** versionFlag *)

Lemma versionFlag_String_Set_round_trip_witness :
  versionFlag_String 11 = "1.11"
  /\ versionFlag_Set "1.11" 0 = (11, None)
  /\ versionFlag_Get (versionFlag_Set "1.11" 0).1 = 11.
Proof.
  split; [reflexivity|].
  apply (versionFlag_String_Set_round_trip 11 0). by vm_compute.
Defined.

(** *** parseIgnore *)

Lemma parseIgnore_render_gives_fields_witness :
  Forall shaped two_rules
  /\ map render two_rules = ["os/exec/*_test.go:S1000,S1001"; "*:ST1003"].
Proof.
  apply (parseIgnore_render_gives_fields
           " os/exec/*_test.go:S1000,S1001   *:ST1003 " two_rules).
  reflexivity.
Defined.

Lemma parseIgnore_reads_rendered_rules_witness :
  parseIgnore "os/exec/*_test.go:S1000,S1001 *:ST1003" = (two_rules, None).
Proof.
  apply (parseIgnore_reads_rendered_rules two_rules).
  - repeat constructor; discriminate.
  - repeat constructor.
Defined.

(** *** resolveRelative *)

Lemma resolveRelative_rewrites_until_failure_witness :
  resolveRelative getwd_w import_under ["a"; "b/c"] []
  = (["/w/a"; "/w/b/c"], false, None)
  /\ resolveRelative getwd_w import_under ["a"; "bad"; "c"] []
     = (["/w/a"; "bad"; "c"], false,
        Some (cant_load_package "bad" (errors_New "cannot find package"))).
Proof.
  split.
  - apply (proj1 (resolveRelative_rewrites_until_failure getwd_w import_under
                    ["a"; "b/c"] [] "/w" eq_refl ltac:(discriminate) eq_refl)).
    repeat constructor.
  - apply (proj2 (resolveRelative_rewrites_until_failure getwd_w import_under
                    ["a"; "bad"; "c"] [] "/w" eq_refl ltac:(discriminate)
                    eq_refl) ["a"] "bad" ["c"]
                 (errors_New "cannot find package") eq_refl).
    + repeat constructor.
    + reflexivity.
Defined.

(** [FlagSet] under the release tags of Go 1.11. *)
Example FlagSet_go1_11 :
  lintutil_FlagSet ["go1.1"; "go1.2"; "go1.10"; "go1.11"]
  = inl (default_flags 11)
  /\ lintutil_FlagSet [] = inr index_out_of_range
  /\ lintutil_FlagSet ["go1.1"; "g"] = inr slice_bounds_out_of_range
  /\ lintutil_FlagSet ["go2.0"] = inr (internal_error invalid_version).
Proof. repeat split; reflexivity. Qed.

(** *** compileErrors *)

Lemma compileErrors_reports_followed_errors_witness :
  (forall p, In p [problem_foo; problem_bar] <->
             exists pkg' e,
               follows heap_two_imports 0%nat pkg'
               /\ IllTyped (heap_two_imports pkg') = true
               /\ In e (Errors (heap_two_imports pkg'))
               /\ p = problem_of e)
  /\ Forall (fun p => p = zero_Problem
                      \/ (Checker p = "compiler" /\ Check p = "compile"))
            [problem_foo; problem_bar].
Proof.
  apply (compileErrors_reports_followed_errors unit heap_two_imports in_order
           2 0%nat st0 [problem_foo; problem_bar]
           {| ranges := 1; trace := [] |}).
  vm_compute. reflexivity.
Defined.

(** *** Lint *)

Lemma Lint_loses_only_duplicates_witness :
  exists rs,
    Forall2 (synthesizes unit heap_late_error in_order 1) [0%nat] rs
    /\ (forall p, In p [problem_of unused_import; problem_of undefined_x] ->
                  In p (raw_problems unit heap_late_error no_problems
                          zero_Options [] [()] [0%nat; 1%nat] rs))
    /\ (forall p, In p (raw_problems unit heap_late_error no_problems
                          zero_Options [] [()] [0%nat; 1%nat] rs) ->
                  exists q,
                    In q [problem_of unused_import; problem_of undefined_x]
                    /\ identical q p).
Proof.
  eapply (Lint_loses_only_duplicates unit heap_late_error load_pkgs01
            insertion_sort no_problems in_order 1 [()] ["./..."]
            zero_Options [] [0%nat; 1%nat] st0 _ None).
  - exact insertion_sort_sorts.
  - reflexivity.
  - reflexivity.
  - right. by left.
  - vm_compute. reflexivity.
Defined.

Lemma Lint_strictly_sorted_when_offsets_agree_witness :
  key_le (problem_of unused_import) (problem_of undefined_x)
  /\ key (problem_of unused_import) <> key (problem_of undefined_x)
  /\ ~ identical (problem_of unused_import) (problem_of undefined_x).
Proof.
  eapply (Lint_strictly_sorted_when_offsets_agree unit heap_late_error
            load_pkgs01 insertion_sort no_problems in_order 1 [()] ["./..."]
            zero_Options [] [0%nat; 1%nat] st0
            [problem_of unused_import; problem_of undefined_x] None _
            insertion_sort_sorts eq_refl eq_refl
            (Exists_cons_tl _ (Exists_cons_hd _ 1%nat [] eq_refl))
            _ _ 0%nat 1%nat).
  - lia.
  - reflexivity.
  - reflexivity.
  Unshelve.
  + exact {| ranges := 0; trace := [EvLoad false ["./..."]; EvLint (linter_of unit zero_Options [] ()) [1%nat]] |}.
  + vm_compute. reflexivity.
  + intros a b [<-|[<-|[]]] [<-|[<-|[]]]; simpl; intros; congruence.
Defined.

(** *** ProcessFlagSet *)

Lemma ProcessFlagSet_exit_status_witness :
  exists (st' : St string) ps st2,
    ProcessFlagSet heap_all_well_typed load_pkg0 insertion_sort in_order
      errcheck_Lint never_stats 1 (errcheck_ng_confs "errcheck")
      flags_xml st0_named
    = Some (Exit 2, st')
    /\ Lint heap_all_well_typed load_pkg0 insertion_sort in_order errcheck_Lint
         1 ["errcheck"] ["./..."]
         (Some {| Tags := ["integration"]; LintTests := true;
                  Ignores := EmptyString; GoVersion := 11;
                  ReturnIgnored := false |})
         {| ranges := 1; trace := [] |}
       = Some ((ps, None), st2)
    /\ ps = [errcheck_problem]
    /\ trace st' = trace st2 ++ [EvStderr (unsupported_format "xml")].
Proof.
  assert (exists st',
             ProcessFlagSet heap_all_well_typed load_pkg0 insertion_sort
               in_order errcheck_Lint never_stats 1
               (errcheck_ng_confs "errcheck") flags_xml st0_named
             = Some (Exit 2, st')) as [st' Hrun].
  { eexists. vm_compute. reflexivity. }
  pose proof (ProcessFlagSet_exit_status string heap_all_well_typed load_pkg0
                insertion_sort errcheck_Lint in_order never_stats 1
                (errcheck_ng_confs "errcheck") flags_xml st0_named
                (Exit 2) st' Hrun) as H.
  cbn [flags_xml flag_version] in H.
  destruct H as (ps & err & st2 & HL & Hm).
  assert (err = None /\ ps = [errcheck_problem]) as [-> ->].
  { clear Hm Hrun. vm_compute in HL. injection HL as <- <- <-.
    split; reflexivity. }
  exists st', [errcheck_problem], st2. split; [exact Hrun|].
  split; [|split; [reflexivity|]].
  - clear Hm Hrun. vm_compute in HL |- *. exact HL.
  - vm_compute in Hm. exact (proj2 Hm).
Defined.

Lemma report_exits_on_any_problem_witness :
  (exists st',
      report never_stats (errcheck_ng_confs "errcheck") format_Text
             [errcheck_problem; problem_foo] st0_named
      = Some (Exit 1, st'))
  /\ (exists st',
         report never_stats (gosimple_confs "simple") format_Text [] st0_named
         = Some (Return, st')).
Proof.
  split.
  - apply (report_exits_on_any_problem string never_stats
             (errcheck_ng_confs "errcheck") format_Text
             [errcheck_problem; problem_foo] st0_named).
    intros name conf H. unfold errcheck_ng_confs, gosimple_confs in H.
    apply lookup_singleton_Some in H as [_ <-]. reflexivity.
  - apply (report_exits_on_any_problem string never_stats
             (gosimple_confs "simple") format_Text [] st0_named).
    intros name conf H. unfold errcheck_ng_confs, gosimple_confs in H.
    apply lookup_singleton_Some in H as [_ <-]. reflexivity.
Defined.
